(** * Streaming audio engine of the smart-teacher front end

    A shallow embedding of the audio paths of two React components:

    - [MessageBubble] (streamed text-to-speech playback): [stopAudio],
      [handleSpeak], [scheduleChunk] and the unmount cleanup;
    - [LiveVoiceModal] (duplex voice session): [encodeAudio],
      [decodeAudioData], the [onopen]/[onmessage]/[onclose]/[onerror]
      callbacks, [processor.onaudioprocess] and the effect cleanup.

    JavaScript numbers are modelled by rationals extended with NaN and the
    two infinities.  Samples handed to the codec are float32 values, and
    every product, quotient and truncation the codec performs on them is
    exact in binary64, so the rational model of the codec is not an
    approximation.  Device times and the loudness value are idealised: the
    first as exact rationals, the second as a real number (it needs a
    square root).

    The browser built-ins the code calls ([atob], [btoa], typed arrays, the
    Web Audio nodes) are modelled from their standards, with the exceptions
    they raise. *)

From Stdlib Require Import ZArith QArith Qround Qabs Qreals Lia Psatz.
From Stdlib Require Import List Sorted Ascii String Reals.
From stdpp Require Import base list.
Import ListNotations.

Local Open Scope Z_scope.

(** ** Exceptions *)

Inductive exn : Type :=
  | InvalidCharacterError   (* atob on a string that is not base64 *)
  | RangeError              (* typed-array view over a misaligned buffer *)
  | NotSupportedError       (* createBuffer with zero frames *)
  | InvalidStateError.      (* stop() on a node that was never started *)

Inductive result (A : Type) : Type :=
  | Ok (a : A)
  | Throw (e : exn).
Arguments Ok {A} a.
Arguments Throw {A} e.

Definition bind {A B} (r : result A) (k : A -> result B) : result B :=
  match r with
  | Ok a => k a
  | Throw e => Throw e
  end.

Notation "'let*' x ':=' r 'in' k" := (bind r (fun x => k))
  (at level 10, x name, r at level 100, k at level 200).

(** ** JavaScript numbers *)

Module JS.

Inductive number : Type :=
  | Num (q : Q)
  | NaN
  | PosInf
  | NegInf.

(** [Math.min] and [Math.max] on finite values. *)
Definition fmin (p q : Q) : Q := if Qlt_le_dec q p then q else p.
Definition fmax (p q : Q) : Q := if Qlt_le_dec p q then q else p.

(** [Math.min] and [Math.max]: NaN is contagious. *)
Definition Math_min (a b : number) : number :=
  match a, b with
  | NaN, _ | _, NaN => NaN
  | NegInf, _ | _, NegInf => NegInf
  | PosInf, x | x, PosInf => x
  | Num p, Num q => Num (fmin p q)
  end.

Definition Math_max (a b : number) : number :=
  match a, b with
  | NaN, _ | _, NaN => NaN
  | PosInf, _ | _, PosInf => PosInf
  | NegInf, x | x, NegInf => x
  | Num p, Num q => Num (fmax p q)
  end.

(** The relational operator [<]: false as soon as an operand is NaN. *)
Definition lt (a b : number) : bool :=
  match a, b with
  | NaN, _ | _, NaN => false
  | Num p, Num q => if Qlt_le_dec p q then true else false
  | NegInf, NegInf => false
  | NegInf, _ => true
  | _, PosInf => match a with PosInf => false | _ => true end
  | _, _ => false
  end.

Definition inf_times (positive : bool) (q : Q) : number :=
  match (q ?= 0)%Q with
  | Eq => NaN
  | Gt => if positive then PosInf else NegInf
  | Lt => if positive then NegInf else PosInf
  end.

Definition mul (a b : number) : number :=
  match a, b with
  | NaN, _ | _, NaN => NaN
  | Num p, Num q => Num (p * q)
  | PosInf, Num q | Num q, PosInf => inf_times true q
  | NegInf, Num q | Num q, NegInf => inf_times false q
  | PosInf, PosInf | NegInf, NegInf => PosInf
  | PosInf, NegInf | NegInf, PosInf => NegInf
  end.

Definition add (a b : number) : number :=
  match a, b with
  | NaN, _ | _, NaN => NaN
  | Num p, Num q => Num (p + q)
  | PosInf, NegInf | NegInf, PosInf => NaN
  | PosInf, _ | _, PosInf => PosInf
  | NegInf, _ | _, NegInf => NegInf
  end.

(** Division; a zero divisor is taken as [+0], the only zero the code
    divides by (an array length). *)
Definition div (a b : number) : number :=
  match a, b with
  | NaN, _ | _, NaN => NaN
  | Num p, Num q =>
      match (q ?= 0)%Q with
      | Eq => inf_times true p
      | _ => Num (p / q)
      end
  | Num _, _ => Num 0
  | PosInf, Num q => if Qlt_le_dec q 0 then NegInf else PosInf
  | NegInf, Num q => if Qlt_le_dec q 0 then PosInf else NegInf
  | _, _ => NaN
  end.

(** Truncation toward zero (the integer part used by every ToIntN). *)
Definition truncate (q : Q) : Z :=
  if Qlt_le_dec q 0 then Qceiling q else Qfloor q.

(** Storing a number in an [Int16Array] slot: ToInt16.  NaN and the
    infinities become 0, a finite value is truncated and wrapped modulo
    2^16 into the signed range. *)
Definition wrap16 (z : Z) : Z :=
  let m := z mod 65536 in
  if 32768 <=? m then m - 65536 else m.

Definition ToInt16 (v : number) : Z :=
  match v with
  | Num q => wrap16 (truncate q)
  | _ => 0
  end.

Definition is_byte (b : Z) : Prop := 0 <= b < 256.
Definition is_int16 (v : Z) : Prop := -32768 <= v <= 32767.

(** [String.fromCharCode] on a byte and [charCodeAt] on a binary string. *)
Definition fromCharCode (b : Z) : ascii := ascii_of_N (Z.to_N b).
Definition charCodeAt (c : ascii) : Z := Z.of_N (N_of_ascii c).

(** The little-endian byte view of an [Int16Array]'s buffer
    ([new Uint8Array(int16.buffer)]). *)
Definition bytes_of_int16 (v : Z) : list Z :=
  let u := v mod 65536 in [u mod 256; u / 256].

Definition Uint8Array_of_Int16Array (l : list Z) : list Z :=
  flat_map bytes_of_int16 l.

(** [new Int16Array(bytes.buffer)]: a RangeError when the byte length is
    odd, otherwise one signed element per little-endian byte pair. *)
Definition int16_of_pair (lo hi : Z) : Z :=
  let u := lo + 256 * hi in
  if 32768 <=? u then u - 65536 else u.

Fixpoint Int16Array_of_buffer (bytes : list Z) : result (list Z) :=
  match bytes with
  | [] => Ok []
  | [_] => Throw RangeError
  | lo :: hi :: rest =>
      let* tl := Int16Array_of_buffer rest in Ok (int16_of_pair lo hi :: tl)
  end.

End JS.

(** ** Base64: [btoa] and [atob] *)

Module Base64.

Definition alphabet : list ascii :=
  list_ascii_of_string
    "ABCDEFGHIJKLMNOPQRSTUVWXYZabcdefghijklmnopqrstuvwxyz0123456789+/".

Definition pad : ascii := "="%char.

Definition digit (i : Z) : ascii := nth (Z.to_nat i) alphabet pad.

(** The value of a base64 digit, [None] outside the alphabet. *)
Definition value (c : ascii) : option Z :=
  let n := JS.charCodeAt c in
  if (65 <=? n) && (n <=? 90) then Some (n - 65)
  else if (97 <=? n) && (n <=? 122) then Some (n - 71)
  else if (48 <=? n) && (n <=? 57) then Some (n + 4)
  else if n =? 43 then Some 62
  else if n =? 47 then Some 63
  else None.

(** Three bytes make four digits; one or two trailing bytes are padded. *)
Fixpoint encode (bs : list Z) : list ascii :=
  match bs with
  | [] => []
  | [a] => [digit (a / 4); digit (a mod 4 * 16); pad; pad]
  | [a; b] =>
      [digit (a / 4); digit (a mod 4 * 16 + b / 16); digit (b mod 16 * 4); pad]
  | a :: b :: c :: rest =>
      digit (a / 4) :: digit (a mod 4 * 16 + b / 16)
        :: digit (b mod 16 * 4 + c / 64) :: digit (c mod 64) :: encode rest
  end.

(** [btoa] takes a binary string (every code unit below 256, which the
    8-bit [ascii] type guarantees) and never throws on one. *)
Definition btoa (binary : string) : string :=
  string_of_list_ascii
    (encode (map JS.charCodeAt (list_ascii_of_string binary))).

(** [atob] is the forgiving-base64 decode of the HTML standard. *)
Definition is_ascii_whitespace (c : ascii) : bool :=
  let n := JS.charCodeAt c in
  (n =? 9) || (n =? 10) || (n =? 12) || (n =? 13) || (n =? 32).

Definition strip_whitespace (l : list ascii) : list ascii :=
  List.filter (fun c => negb (is_ascii_whitespace c)) l.

Definition is_pad (c : ascii) : bool := JS.charCodeAt c =? 61.

(** Removes one or two [=] from the end of the data. *)
Fixpoint drop_end_padding (l : list ascii) : list ascii :=
  match l with
  | [] => []
  | [c] => if is_pad c then [] else [c]
  | [c; d] =>
      if is_pad d then (if is_pad c then [] else [c]) else [c; d]
  | c :: rest => c :: drop_end_padding rest
  end.

Definition strip_padding (l : list ascii) : list ascii :=
  if Z.of_nat (length l) mod 4 =? 0 then drop_end_padding l else l.

Fixpoint values (l : list ascii) : option (list Z) :=
  match l with
  | [] => Some []
  | c :: rest =>
      match value c, values rest with
      | Some v, Some vs => Some (v :: vs)
      | _, _ => None
      end
  end.

(** Four digits make three bytes; a final group of three digits makes two
    bytes and a final group of two digits one byte, the spare bits being
    discarded. *)
Fixpoint decode (vs : list Z) : list Z :=
  match vs with
  | a :: b :: c :: d :: rest =>
      (a * 4 + b / 16) :: (b mod 16 * 16 + c / 4) :: (c mod 4 * 64 + d)
        :: decode rest
  | [a; b; c] => [a * 4 + b / 16; b mod 16 * 16 + c / 4]
  | [a; b] => [a * 4 + b / 16]
  | _ => []
  end.

(** The decoding proper, once whitespace and padding are gone: it fails on
    a length that leaves a lone digit and on any character outside the
    alphabet. *)
Definition decode_data (d : list ascii) : option (list Z) :=
  if Z.of_nat (length d) mod 4 =? 1 then None
  else option_map decode (values d).

Definition atob (data : string) : result string :=
  let d := strip_padding (strip_whitespace (list_ascii_of_string data)) in
  match decode_data d with
  | None => Throw InvalidCharacterError
  | Some bytes => Ok (string_of_list_ascii (map JS.fromCharCode bytes))
  end.

Arguments digit : simpl never.

End Base64.

(** ** SampleCodec: [encodeAudio] and [decodeAudioData] (LiveVoiceModal) *)

Module Codec.
Import JS.

(** The body of the first loop of [encodeAudio]: clamp, scale
    asymmetrically, store in the [Int16Array]. *)
Definition quantize (x : number) : Z :=
  let s := Math_max (Num (-1)) (Math_min (Num 1) x) in
  ToInt16 (if lt s (Num 0) then mul s (Num 32768) else mul s (Num 32767)).

Definition encodeAudio (inputData : list number) : string :=
  let int16 := map quantize inputData in
  let bytes := Uint8Array_of_Int16Array int16 in
  let binary := string_of_list_ascii (map fromCharCode bytes) in
  Base64.btoa binary.

(** [int16[i] / 32768.0] stored in a [Float32Array]: exact, since a 16-bit
    integer over 2^15 fits a float32 mantissa. *)
Definition dequantize (v : Z) : Q := inject_Z v / 32768.

Definition decodeAudioData (base64String : string) : result (list Q) :=
  let* binary := Base64.atob base64String in
  let bytes := map charCodeAt (list_ascii_of_string binary) in
  let* int16 := Int16Array_of_buffer bytes in
  Ok (map dequantize int16).

(** A sample inside the nominal range [-1, 1] (so neither NaN nor an
    infinity). *)
Definition unit_sample (x : number) : Prop :=
  match x with
  | Num q => (-1 <= q <= 1)%Q
  | _ => False
  end.

(** One quantization step of the 16-bit encoding, as a rational. *)
Definition quantization_step : Q := 1 # 32768.

(** Distance between a decoded value and the sample it came from. *)
Definition reconstruction_error (x : number) (y : Q) : option Q :=
  match x with
  | Num q => Some (Qabs (y - q))
  | _ => None
  end.

(** The range of a decoded sample. *)
Definition decoded_range (y : Q) : Prop := (-1 <= y <= 32767 # 32768)%Q.

(** Every finite sample of [x] is reproduced in [y], position by position,
    with an error of at most [bound]. *)
Definition error_at_most (bound : Q) (x : list number) (y : list Q) : Prop :=
  Forall2 (fun s r => forall q, s = Num q -> (Qabs (r - q) <= bound)%Q) x y.

(** The same with a strict bound, and a sharper one for negative samples. *)
Definition error_below (bound neg_bound : Q)
    (x : list number) (y : list Q) : Prop :=
  Forall2 (fun s r => forall q, s = Num q ->
             (Qabs (r - q) < bound)%Q /\
             ((q < 0)%Q -> (Qabs (r - q) < neg_bound)%Q)) x y.

(** An inbound chunk is well formed when it is valid base64 for an even
    number of bytes, and malformed otherwise. *)
Definition byte_length (binary : string) : Z :=
  Z.of_nat (length (list_ascii_of_string binary)).

Definition well_formed (chunk : string) : Prop :=
  exists binary, Base64.atob chunk = Ok binary /\ byte_length binary mod 2 = 0.

Definition malformed (chunk : string) : Prop :=
  Base64.atob chunk = Throw InvalidCharacterError \/
  exists binary, Base64.atob chunk = Ok binary /\ byte_length binary mod 2 = 1.

End Codec.


(** ** Control flow helpers *)

(** [try { body } catch (e) { handler }]. *)
Definition try_catch {A} (body : result A) (handler : exn -> result A)
  : result A :=
  match body with
  | Ok a => Ok a
  | Throw e => handler e
  end.

(** [array.forEach(f)], the callback threading the state it mutates. *)
Fixpoint forEach {A S} (l : list A) (f : A -> S -> result S) (s : S)
  : result S :=
  match l with
  | [] => Ok s
  | a :: rest => let* s' := f a s in forEach rest f s'
  end.

(** ** The Web Audio objects the components use *)

Module WebAudio.

Inductive context_state : Type := Running | Suspended | Closed.

(** [close()] returns a promise, rejected with InvalidStateError when the
    context is closed already; nothing is thrown synchronously. *)
Inductive promise : Type := Resolved | Rejected (e : exn).

Definition close (c : context_state) : context_state * promise :=
  match c with
  | Closed => (Closed, Rejected InvalidStateError)
  | _ => (Closed, Resolved)
  end.

Definition resume (c : context_state) : context_state :=
  match c with
  | Suspended => Running
  | c => c
  end.

(** An [AudioBufferSourceNode]: the length of its buffer in frames, the
    time passed to [start], where it is in its life, and which [onended]
    handler the component attached to it. *)
Inductive playback : Type :=
  | Unstarted     (* created, [start] not called *)
  | Scheduled     (* started: waiting for its start time, or playing *)
  | Finished      (* played to the end of its buffer *)
  | Halted.       (* cut by [stop] *)

Inductive handler : Type :=
  | NoHandler
  | RemoveFromSources   (* the handler [scheduleChunk] installs *)
  | ReportDrained.      (* the handler [handleSpeak] installs on the last node *)

Record node : Type := mkNode {
  frames : nat;
  when : option Q;
  playback_state : playback;
  onended : handler
}.

Definition with_playback (p : playback) (n : node) : node :=
  mkNode (frames n) (when n) p (onended n).

Definition with_onended (h : handler) (n : node) : node :=
  mkNode (frames n) (when n) (playback_state n) h.

(** Both components play at 24000 frames per second. *)
Definition sampleRate : Q := 24000.

(** [buffer.duration]. *)
Definition duration (length : nat) : Q :=
  inject_Z (Z.of_nat length) / sampleRate.

(** [ctx.createBuffer(1, length, 24000)] rejects an empty buffer. *)
Definition createBuffer (length : nat) : result nat :=
  match length with
  | O => Throw NotSupportedError
  | _ => Ok length
  end.

(** [ctx.createBufferSource()] followed by [source.buffer = buffer] and
    [source.connect(ctx.destination)]: a new object, named by its position
    in the heap of nodes. *)
Definition createBufferSource (buffer : nat) (heap : list node)
  : list node * nat :=
  (heap ++ [mkNode buffer None Unstarted NoHandler], length heap).

(** [source.start(t)].  The components only pass
    [max(ctx.currentTime, ...)], which is never negative, and start a node
    once, so the RangeError and InvalidStateError cases are not reachable
    and not modelled. *)
Definition start (source : nat) (t : Q) (heap : list node) : list node :=
  alter (fun n => mkNode (frames n) (Some t) Scheduled (onended n)) source heap.

Definition set_onended (source : nat) (h : handler) (heap : list node)
  : list node :=
  alter (with_onended h) source heap.

(** [source.stop()]: InvalidStateError on a node never started, the end of
    playback for a scheduled one, nothing on a node that is over. *)
Definition stop (source : nat) (heap : list node) : result (list node) :=
  match heap !! source with
  | Some n =>
      match playback_state n with
      | Unstarted => Throw InvalidStateError
      | Scheduled => Ok (alter (with_playback Halted) source heap)
      | Finished | Halted => Ok heap
      end
  | None => Ok heap
  end.

(** The device reaching the end of a node's buffer. *)
Definition finish (source : nat) (heap : list node) : list node :=
  alter (fun n => match playback_state n with
                  | Scheduled => with_playback Finished n
                  | _ => n
                  end) source heap.

(** The fragments given to the device, oldest first, each with its start
    time and its duration. *)
Definition fragment : Type := (Q * Q)%type.
Definition start_of (f : fragment) : Q := fst f.
Definition end_of (f : fragment) : Q := (fst f + snd f)%Q.

Fixpoint timeline (heap : list node) : list fragment :=
  match heap with
  | [] => []
  | n :: rest =>
      match when n with
      | Some t => (t, duration (frames n)) :: timeline rest
      | None => timeline rest
      end
  end.

(** [g] starts no earlier than [f] and no earlier than [f] ends. *)
Definition follows (f g : fragment) : Prop :=
  (start_of f <= start_of g)%Q /\ (end_of f <= start_of g)%Q.

(** The scheduling recurrence on its own: each arrival, a device time and
    a number of frames, starts at the later of its arrival and the cursor,
    and moves the cursor to its end. *)
Fixpoint plan (cursor : Q) (arrivals : list (Q * nat)) : list fragment :=
  match arrivals with
  | [] => []
  | (now, frames) :: rest =>
      let start_ := JS.fmax now cursor in
      (start_, duration frames) :: plan (start_ + duration frames)%Q rest
  end.

(** The fragments scheduled between two states of a heap that only grew. *)
Definition new_fragments (before after : list node) : list fragment :=
  timeline (drop (length before) after).

(** The two ways the arrival of a chunk can change a heap and a cursor:
    not at all, or by one node scheduled at the later of the clock and the
    cursor, the cursor moving to that node's end. *)
Definition skips (heap : list node) (cursor : Q)
    (heap' : list node) (cursor' : Q) : Prop :=
  heap' = heap /\ cursor' = cursor.

Definition schedules_one (heap : list node) (cursor : Q)
    (heap' : list node) (cursor' : Q) : Prop :=
  exists now frames h,
    heap' = heap ++ [mkNode frames (Some (JS.fmax now cursor)) Scheduled h] /\
    cursor' = (JS.fmax now cursor + duration frames)%Q.

(** What a guarded [stop] leaves of a node, and of a heap after a guarded
    [stop] of each of the listed sources. *)
Definition halt_node (n : node) : node :=
  match playback_state n with
  | Scheduled => with_playback Halted n
  | _ => n
  end.

Definition halt_all (sources : list nat) (heap : list node) : list node :=
  fold_left (fun h source => alter halt_node source h) sources heap.

End WebAudio.

(** ** MessageBubble: streamed text-to-speech playback *)

Module MessageBubble.
Import JS WebAudio.

Record state : Type := mkState {
  isSpeaking : bool;
  isLoadingAudio : bool;
  audioContextRef : option context_state;
  sourcesRef : list nat;
  nextStartTimeRef : Q;
  heap : list node;           (* the source nodes created so far *)
  console : list string       (* what [console.error] received *)
}.

Definition initial : state := mkState false false None [] 0 [] [].

Definition stopAudio (s : state) : result state :=
  let* heap' :=
    forEach (sourcesRef s)
      (fun source h => try_catch (stop source h) (fun _ => Ok h))
      (heap s) in
  Ok (mkState false (isLoadingAudio s) (audioContextRef s) [] 0 heap'
        (console s)).

(** [scheduleChunk], [now] being the value [ctx.currentTime] has when the
    chunk arrives.  Every statement that can throw comes before the first
    assignment to a ref, so the handler resumes from the state at entry. *)
Definition scheduleChunk (now : Q) (base64 : string) (s : state)
  : result (state * option nat) :=
  match audioContextRef s with
  | None => Ok (s, None)
  | Some _ =>
      try_catch
        (let* binaryString := Base64.atob base64 in
         let bytes := map charCodeAt (list_ascii_of_string binaryString) in
         let* int16 := Int16Array_of_buffer bytes in
         let float32 := map Codec.dequantize int16 in
         let* buffer := createBuffer (length float32) in
         let '(heap1, source) := createBufferSource buffer (heap s) in
         let startTime := fmax now (nextStartTimeRef s) in
         let heap2 := start source startTime heap1 in
         let heap3 := set_onended source RemoveFromSources heap2 in
         Ok (mkState (isSpeaking s) (isLoadingAudio s) (audioContextRef s)
               (sourcesRef s ++ [source])
               (startTime + duration buffer)
               heap3 (console s),
             Some source))
        (fun err =>
           Ok (mkState (isSpeaking s) (isLoadingAudio s) (audioContextRef s)
                 (sourcesRef s) (nextStartTimeRef s) (heap s)
                 (console s ++ ["Error decoding audio chunk"%string]),
               None))
  end.

(** [handleSpeak] up to the call of [streamSpeech]; [cleanText] is the
    message text after cleaning, [now] the context's clock once it runs.
    Creating and resuming the context are taken to succeed, so the [catch]
    of [handleSpeak] has nothing to handle. *)
Definition handleSpeak (now : Q) (cleanText : string) (s : state)
  : result state :=
  if isSpeaking s then stopAudio s
  else if isLoadingAudio s then Ok s
  else
    match cleanText with
    | EmptyString =>
        Ok (mkState false false (audioContextRef s) (sourcesRef s)
              (nextStartTimeRef s) (heap s) (console s))
    | _ =>
        let ctx := match audioContextRef s with
                   | None => Running
                   | Some c => c
                   end in
        Ok (mkState true true (Some (resume ctx)) (sourcesRef s)
              now (heap s) (console s))
    end.

(** The callback [handleSpeak] hands to [streamSpeech]; [isFirstChunk] is
    the local flag of that call and the result the new [activeSource]. *)
Definition onAudioChunk (isFirstChunk : bool) (now : Q) (base64 : string)
    (s : state) : result (state * option nat) :=
  let s1 := if isFirstChunk
            then mkState (isSpeaking s) false (audioContextRef s)
                   (sourcesRef s) (nextStartTimeRef s) (heap s) (console s)
            else s in
  scheduleChunk now base64 s1.

(** What [handleSpeak] does once the stream is over. *)
Definition onStreamDone (activeSource : option nat) (s : state) : state :=
  match activeSource with
  | Some source =>
      mkState (isSpeaking s) (isLoadingAudio s) (audioContextRef s)
        (sourcesRef s) (nextStartTimeRef s)
        (set_onended source ReportDrained (heap s)) (console s)
  | None =>
      mkState false false (audioContextRef s) (sourcesRef s)
        (nextStartTimeRef s) (heap s) (console s)
  end.

(** [indexOf] then [splice(index, 1)]: the first occurrence goes. *)
Fixpoint remove_first (source : nat) (l : list nat) : list nat :=
  match l with
  | [] => []
  | x :: rest => if Nat.eqb x source then rest else x :: remove_first source rest
  end.

(** The [ended] event of a node, at device time [now]. *)
Definition onended_event (source : nat) (now : Q) (s : state) : state :=
  let heap' := finish source (heap s) in
  match option_map onended (heap s !! source) with
  | Some RemoveFromSources =>
      mkState (isSpeaking s) (isLoadingAudio s) (audioContextRef s)
        (remove_first source (sourcesRef s)) (nextStartTimeRef s) heap'
        (console s)
  | Some ReportDrained =>
      let drained :=
        match audioContextRef s with
        | Some _ =>
            if Qlt_le_dec now (nextStartTimeRef s - (1 # 2)) then false
            else true
        | None => false
        end in
      mkState (if drained then false else isSpeaking s) (isLoadingAudio s)
        (audioContextRef s) (sourcesRef s) (nextStartTimeRef s) heap'
        (console s)
  | _ =>
      mkState (isSpeaking s) (isLoadingAudio s) (audioContextRef s)
        (sourcesRef s) (nextStartTimeRef s) heap' (console s)
  end.

(** The unmount cleanup; the list holds the promises [close] returned. *)
Definition cleanup (s : state) : result (state * list promise) :=
  let* s1 := stopAudio s in
  match audioContextRef s1 with
  | Some c =>
      match c with
      | Closed => Ok (s1, [])
      | _ =>
          let '(c', p) := close c in
          Ok (mkState (isSpeaking s1) (isLoadingAudio s1) (Some c')
                (sourcesRef s1) (nextStartTimeRef s1) (heap s1) (console s1),
              [p])
      end
  | None => Ok (s1, [])
  end.

(** Everything that can happen to the component's audio state. *)
Inductive operation : Type :=
  | Speak (now : Q) (cleanText : string)         (* click on the button *)
  | Chunk (isFirstChunk : bool) (now : Q) (base64 : string)
  | StreamDone (activeSource : option nat)
  | Ended (source : nat) (now : Q)
  | Unmount.

Definition step (op : operation) (s : state) : result state :=
  match op with
  | Speak now cleanText => handleSpeak now cleanText s
  | Chunk isFirstChunk now base64 =>
      let* r := onAudioChunk isFirstChunk now base64 s in Ok (fst r)
  | StreamDone activeSource => Ok (onStreamDone activeSource s)
  | Ended source now => Ok (onended_event source now s)
  | Unmount => let* r := cleanup s in Ok (fst r)
  end.

(** A click that starts a new stream, as opposed to one that stops the
    running one or is ignored. *)
Definition starts_stream (op : operation) (s : state) : option Q :=
  match op with
  | Speak now cleanText =>
      if isSpeaking s || isLoadingAudio s then None
      else match cleanText with
           | EmptyString => None
           | _ => Some now
           end
  | _ => None
  end.

(** An operation that runs [stopAudio]. *)
Definition stops (op : operation) (s : state) : bool :=
  match op with
  | Speak _ _ => isSpeaking s
  | Unmount => true
  | _ => false
  end.

(** A stream of chunks, each arriving at its own device time. *)
Definition arrive (a : Q * string) (s : state) : state :=
  match scheduleChunk (fst a) (snd a) s with
  | Ok (s', _) => s'
  | Throw _ => s
  end.

Definition deliver (arrivals : list (Q * string)) (s : state) : state :=
  fold_left (fun s a => arrive a s) arrivals s.

(** The arrival a chunk stands for: its device time and the number of
    samples it decodes to, if it decodes to any. *)
Definition fragment_of (a : Q * string) : option (Q * nat) :=
  match Codec.decodeAudioData (snd a) with
  | Ok float32 =>
      match length float32 with
      | O => None
      | frames => Some (fst a, frames)
      end
  | Throw _ => None
  end.

(** The two states [scheduleChunk] can leave when there is a context. *)
Definition logged (s : state) : state :=
  mkState (isSpeaking s) (isLoadingAudio s) (audioContextRef s)
    (sourcesRef s) (nextStartTimeRef s) (heap s)
    (console s ++ ["Error decoding audio chunk"%string]).

Definition scheduled (now : Q) (frames : nat) (s : state) : state :=
  mkState (isSpeaking s) (isLoadingAudio s) (audioContextRef s)
    (sourcesRef s ++ [length (heap s)])
    (fmax now (nextStartTimeRef s) + duration frames)
    (heap s ++ [mkNode frames (Some (fmax now (nextStartTimeRef s)))
                  Scheduled RemoveFromSources])
    (console s).

(** The state [stopAudio] leaves. *)
Definition stopped (s : state) : state :=
  mkState false (isLoadingAudio s) (audioContextRef s) [] 0
    (halt_all (sourcesRef s) (heap s)) (console s).

(** C5 as the specification states it: an operation leaves the cursor
    where it was or higher, unless it starts a stream and sets the cursor
    to the clock. *)
Definition cursor_rule (op : operation) (s s' : state) : Prop :=
  (nextStartTimeRef s <= nextStartTimeRef s')%Q \/
  (exists now, starts_stream op s = Some now /\ nextStartTimeRef s' = now).

(** The rule the code follows: a stop may also bring the cursor to zero. *)
Definition cursor_rule_with_stop (op : operation) (s s' : state) : Prop :=
  (nextStartTimeRef s <= nextStartTimeRef s')%Q \/
  (exists now, starts_stream op s = Some now /\ nextStartTimeRef s' = now) \/
  (stops op s = true /\ nextStartTimeRef s' = 0%Q).

End MessageBubble.

(** ** Loudness of a capture frame *)

Module Loudness.
Import JS.

(** Numbers that went through [Math.sqrt]: reals, NaN and the infinities. *)
Inductive rnumber : Type :=
  | RNum (r : R)
  | RNaN
  | RPosInf
  | RNegInf.

Definition Math_sqrt (v : number) : rnumber :=
  match v with
  | Num q => if Qlt_le_dec q 0 then RNaN else RNum (sqrt (Q2R q))
  | PosInf => RPosInf
  | NaN | NegInf => RNaN
  end.

(** Multiplication by a finite positive constant, here the gain. *)
Definition scale (v : rnumber) (gain : R) : rnumber :=
  match v with
  | RNum r => RNum (r * gain)
  | other => other
  end.

(** [Math.min(v, bound)] for a finite bound. *)
Definition at_most (v : rnumber) (bound : R) : rnumber :=
  match v with
  | RNum r => RNum (Rmin r bound)
  | RPosInf => RNum bound
  | RNegInf => RNegInf
  | RNaN => RNaN
  end.

Definition gain : R := 5%R.

(** The loop of [onaudioprocess] that accumulates the squares. *)
Definition accumulate (sum x : number) : number := add sum (mul x x).

Definition sum_squares (inputData : list number) : number :=
  fold_left accumulate inputData (Num 0).

Definition rms (inputData : list number) : rnumber :=
  Math_sqrt
    (div (sum_squares inputData)
         (Num (inject_Z (Z.of_nat (length inputData))))).

(** The value handed to [setVolumeLevel]. *)
Definition volume (inputData : list number) : rnumber :=
  at_most (scale (rms inputData) gain) 1.

Definition in_unit_interval (v : rnumber) : Prop :=
  match v with
  | RNum r => (0 <= r <= 1)%R
  | _ => False
  end.

Definition not_NaN (x : number) : Prop := x <> NaN.

(** A frame at full scale: every sample is 1 or -1. *)
Definition full_scale (x : number) : Prop :=
  exists q, x = Num q /\ ((q == 1)%Q \/ (q == -1)%Q).

Definition silent (x : number) : Prop :=
  exists q, x = Num q /\ (q == 0)%Q.

(** A sum of squares is a non-negative rational or [+Infinity]. *)
Definition nonneg (v : number) : Prop :=
  match v with
  | Num q => (0 <= q)%Q
  | PosInf => True
  | _ => False
  end.

End Loudness.

(** ** LiveVoiceModal: the duplex voice session *)

Module LiveVoiceModal.
Import JS WebAudio.

Inductive status_t : Type := Connecting | Connected | Error.

(** [readyState] of a [MediaStreamTrack]. *)
Inductive track : Type := Live | EndedTrack.

(** What a callback asks of the outside: the React setter of the volume
    indicator, the outbound transport, a timer, the [onClose] prop. *)
Inductive effect : Type :=
  | SetVolumeLevel (v : Loudness.rnumber)
  | SendRealtimeInput (mimeType data : string)
  | SetTimeout (ms : Z)     (* [() => setVolumeLevel(0)] after [ms] *)
  | OnClose.

(** The refs of the component, each holding the object it points to, and
    the input context [onopen] creates and keeps in no ref.  A node ref
    holds [true] while the node is connected. *)
Record state : Type := mkState {
  status : status_t;
  audioContextRef : option context_state;
  mediaStreamRef : option (list track);
  processorRef : option bool;
  sourceRef : option bool;
  sessionRef : bool;
  nextStartTimeRef : Q;
  mountedRef : bool;
  inputCtx : option context_state;
  heap : list node            (* the buffer sources given to the output *)
}.

Definition initial : state :=
  mkState Connecting None None None None false 0 true None [].

Definition set_status (st : status_t) (s : state) : state :=
  mkState st (audioContextRef s) (mediaStreamRef s) (processorRef s)
    (sourceRef s) (sessionRef s) (nextStartTimeRef s) (mountedRef s)
    (inputCtx s) (heap s).

(** [connect], cut at its two [await]s.  First the part before
    [getUserMedia]: without an API key the [catch] sets the error status,
    otherwise the output context is created. *)
Definition connect_begin (apiKey : bool) (s : state) : state :=
  if apiKey then
    mkState Connecting (Some Running) (mediaStreamRef s) (processorRef s)
      (sourceRef s) (sessionRef s) (nextStartTimeRef s) (mountedRef s)
      (inputCtx s) (heap s)
  else set_status Error s.

(** [getUserMedia] settles: with a stream, or with a rejection that the
    [catch] turns into the error status. *)
Definition connect_stream (stream : option (list track)) (s : state) : state :=
  match stream with
  | Some tracks =>
      mkState (status s) (audioContextRef s) (Some tracks) (processorRef s)
        (sourceRef s) (sessionRef s) (nextStartTimeRef s) (mountedRef s)
        (inputCtx s) (heap s)
  | None => set_status Error s
  end.

(** [ai.live.connect] settles. *)
Definition connect_session (connected : bool) (s : state) : state :=
  if connected then
    mkState (status s) (audioContextRef s) (mediaStreamRef s) (processorRef s)
      (sourceRef s) true (nextStartTimeRef s) (mountedRef s)
      (inputCtx s) (heap s)
  else set_status Error s.

Definition onopen (s : state) : state :=
  if mountedRef s then
    mkState Connected (audioContextRef s) (mediaStreamRef s) (Some true)
      (Some true) (sessionRef s) (nextStartTimeRef s) (mountedRef s)
      (Some Running) (heap s)
  else s.

(** [processor.onaudioprocess]; [isMuted] is the value the closure of
    [connect] captured. *)
Definition onaudioprocess (isMuted : bool) (inputData : list number)
  : list effect :=
  if isMuted then []
  else [SetVolumeLevel (Loudness.volume inputData);
        SendRealtimeInput "audio/pcm;rate=16000"
          (Codec.encodeAudio inputData)].

(** C4 as the specification states it: the loudness of the frame is
    published whatever the mute flag. *)
Definition publishes_loudness (isMuted : bool) (inputData : list number)
  : Prop :=
  In (SetVolumeLevel (Loudness.volume inputData))
     (onaudioprocess isMuted inputData).

(** A string is truthy unless empty. *)
Definition truthy (audioData : option string) : option string :=
  match audioData with
  | Some EmptyString | None => None
  | Some data => Some data
  end.

(** [onmessage]: [audioData] is the inline data of the message if it has
    any, [now] the output clock, [random] the draw of [Math.random].
    Nothing catches what [decodeAudioData] or [createBuffer] throw. *)
Definition onmessage (now random : Q) (audioData : option string) (s : state)
  : result (state * list effect) :=
  if mountedRef s then
    match truthy audioData, audioContextRef s with
    | Some data, Some _ =>
        let* float32Data := Codec.decodeAudioData data in
        let* buffer := createBuffer (length float32Data) in
        let '(heap1, bufSource) := createBufferSource buffer (heap s) in
        let currentTime := now in
        let start_ := fmax currentTime (nextStartTimeRef s) in
        let heap2 := start bufSource start_ heap1 in
        Ok (mkState (status s) (audioContextRef s) (mediaStreamRef s)
              (processorRef s) (sourceRef s) (sessionRef s)
              (start_ + duration buffer) (mountedRef s) (inputCtx s) heap2,
            [SetVolumeLevel
               (Loudness.RNum (Q2R (random * (1 # 2) + (3 # 10))));
             SetTimeout 200])
    | _, _ => Ok (s, [SetTimeout 200])
    end
  else Ok (s, []).

Definition onclose (s : state) : state * list effect :=
  if mountedRef s then (s, [OnClose]) else (s, []).

Definition onerror (s : state) : state :=
  if mountedRef s then set_status Error s else s.

(** The cleanup of the effect; the list holds the promises [close]
    returned. *)
Definition cleanup (s : state) : state * list promise :=
  let tracks := option_map (map (fun _ => EndedTrack)) (mediaStreamRef s) in
  let processor := option_map (fun _ => false) (processorRef s) in
  let source := option_map (fun _ => false) (sourceRef s) in
  let closed := option_map close (audioContextRef s) in
  (mkState (status s) (option_map fst closed) tracks processor source
     (sessionRef s) (nextStartTimeRef s) false (inputCtx s) (heap s),
   match closed with
   | Some (_, p) => [p]
   | None => []
   end).

(** The resources the refs hold are all released. *)
Definition tracks_ended (tracks : list track) : bool :=
  forallb (fun t => match t with EndedTrack => true | Live => false end) tracks.

Definition released (s : state) : bool :=
  match mediaStreamRef s with Some tracks => tracks_ended tracks | None => true end
  && match processorRef s with Some connected => negb connected | None => true end
  && match sourceRef s with Some connected => negb connected | None => true end
  && match audioContextRef s with Some Closed | None => true | _ => false end.

(** The messages of a session, one callback run each; an exception leaves
    the callback and the state as it was when thrown, which is the state at
    entry since [onmessage] throws before it assigns. *)
Definition arrive (m : Q * Q * option string) (s : state) : state :=
  match onmessage (fst (fst m)) (snd (fst m)) (snd m) s with
  | Ok (s', _) => s'
  | Throw _ => s
  end.

Definition deliver (messages : list (Q * Q * option string)) (s : state)
  : state :=
  fold_left (fun s m => arrive m s) messages s.

(** The arrival a message stands for, if it carries audio that decodes
    to at least one sample. *)
Definition fragment_of (m : Q * Q * option string) : option (Q * nat) :=
  match truthy (snd m) with
  | Some data =>
      match Codec.decodeAudioData data with
      | Ok float32 =>
          match length float32 with
          | O => None
          | frames => Some (fst (fst m), frames)
          end
      | Throw _ => None
      end
  | None => None
  end.

(** The state [onmessage] leaves after it scheduled a buffer. *)
Definition scheduled (now : Q) (frames : nat) (s : state) : state :=
  mkState (status s) (audioContextRef s) (mediaStreamRef s)
    (processorRef s) (sourceRef s) (sessionRef s)
    (fmax now (nextStartTimeRef s) + duration frames)
    (mountedRef s) (inputCtx s)
    (heap s ++ [mkNode frames (Some (fmax now (nextStartTimeRef s)))
                  Scheduled NoHandler]).

Definition activity (random : Q) : list effect :=
  [SetVolumeLevel (Loudness.RNum (Q2R (random * (1 # 2) + (3 # 10))));
   SetTimeout 200].

(** Everything that can happen to the component's session state. *)
Inductive operation : Type :=
  | ConnectBegin (apiKey : bool)
  | ConnectStream (stream : option (list track))
  | ConnectSession (connected : bool)
  | Open
  | Message (now random : Q) (audioData : option string)
  | CloseSignal
  | ErrorSignal
  | Cleanup.

Definition step (op : operation) (s : state) : result state :=
  match op with
  | ConnectBegin apiKey => Ok (connect_begin apiKey s)
  | ConnectStream stream => Ok (connect_stream stream s)
  | ConnectSession connected => Ok (connect_session connected s)
  | Open => Ok (onopen s)
  | Message now random audioData =>
      let* r := onmessage now random audioData s in Ok (fst r)
  | CloseSignal => Ok (fst (onclose s))
  | ErrorSignal => Ok (onerror s)
  | Cleanup => Ok (fst (cleanup s))
  end.

End LiveVoiceModal.

(** ** Runs, invariants and shapes used by the further properties *)

Module Playback.
Import JS WebAudio.

(** Fragments laid end to end from a cursor on: each starts where the one
    before it ends, the first at the cursor. *)
Fixpoint contiguous (cursor : Q) (fragments : list fragment) : Prop :=
  match fragments with
  | [] => True
  | f :: rest => (start_of f == cursor)%Q /\ contiguous (end_of f) rest
  end.

(** A node on which [start] has been called. *)
Definition started (n : node) : Prop := playback_state n <> Unstarted.

(** A pending list that names existing nodes, each once. *)
Definition pending_ok (sources : list nat) (heap : list node) : Prop :=
  Forall started heap /\
  List.Forall (fun source => (source < length heap)%nat) sources /\
  List.NoDup sources.

(** A sequence of operations of MessageBubble, each run on the state the
    one before it left. *)
Fixpoint run (ops : list MessageBubble.operation) (s : MessageBubble.state)
  : result MessageBubble.state :=
  match ops with
  | [] => Ok s
  | op :: rest => let* s' := MessageBubble.step op s in run rest s'
  end.

(** The same for LiveVoiceModal, an exception leaving the state as it
    was. *)
Fixpoint run_live (ops : list LiveVoiceModal.operation)
    (s : LiveVoiceModal.state) : LiveVoiceModal.state :=
  match ops with
  | [] => s
  | op :: rest =>
      match LiveVoiceModal.step op s with
      | Ok s' => run_live rest s'
      | Throw _ => run_live rest s
      end
  end.

End Playback.

Module Session.
Import WebAudio LiveVoiceModal.

(** The operations that do not assign [mediaStreamRef]: all but the
    settling of [getUserMedia] and the cleanup. *)
Definition keeps_stream (op : operation) : bool :=
  match op with
  | ConnectStream _ | Cleanup => false
  | _ => true
  end.


End Session.

(** ** geminiService: [streamSpeech] *)

Module GeminiService.

(** The [for await] loop of [streamSpeech].  A chunk of the response
    stream is given with the device time at which it is received and its
    inline audio data, if it has any; the callback gets the data of the
    chunks whose data is truthy, in order.  The callback returns the state
    it left and the exception it threw, if any; an exception ends the
    loop. *)
Fixpoint for_await {S} (responseStream : list (Q * option string))
    (onAudioChunk : Q -> string -> S -> S * option exn) (s : S)
  : S * option exn :=
  match responseStream with
  | [] => (s, None)
  | (now, audioData) :: rest =>
      match LiveVoiceModal.truthy audioData with
      | Some data =>
          match onAudioChunk now data s with
          | (s', None) => for_await rest onAudioChunk s'
          | (s', Some e) => (s', Some e)
          end
      | None => for_await rest onAudioChunk s
      end
  end.

(** [streamSpeech]: [failure] tells whether the request or the stream
    itself throws once the listed chunks have been received.  Whatever is
    thrown inside the [try] is logged through [error] and swallowed. *)
Definition streamSpeech {S} (responseStream : list (Q * option string))
    (failure : bool) (onAudioChunk : Q -> string -> S -> S * option exn)
    (error : string -> S -> S) (s : S) : S :=
  match for_await responseStream onAudioChunk s with
  | (s', Some _) => error "TTS Stream Error:"%string s'
  | (s', None) =>
      if failure then error "TTS Stream Error:"%string s' else s'
  end.

End GeminiService.

(** ** MessageBubble: a whole run of [handleSpeak] *)

Module Speech.
Import JS WebAudio MessageBubble.

(** The variables [handleSpeak] declares before it calls [streamSpeech]
    and its callback assigns. *)
Record locals : Type := mkLocals {
  isFirstChunk : bool;
  activeSource : option nat
}.

(** The callback [handleSpeak] passes to [streamSpeech]. *)
Definition onChunk (now : Q) (base64 : string) (sl : state * locals)
  : (state * locals) * option exn :=
  match onAudioChunk (isFirstChunk (snd sl)) now base64 (fst sl) with
  | Ok (s', source) => ((s', mkLocals false source), None)
  | Throw e => (sl, Some e)
  end.

(** [console.error] as seen from the pair of the state and the locals. *)
Definition error (message : string) (sl : state * locals) : state * locals :=
  (mkState (isSpeaking (fst sl)) (isLoadingAudio (fst sl))
     (audioContextRef (fst sl)) (sourcesRef (fst sl))
     (nextStartTimeRef (fst sl)) (heap (fst sl))
     (console (fst sl) ++ [message]),
   snd sl).

(** [handleSpeak] from the click to the end of the stream: the part up to
    [streamSpeech], then, if that part started a stream, the stream and
    what follows it. *)
Definition speak (now : Q) (cleanText : string)
    (responseStream : list (Q * option string)) (failure : bool) (s : state)
  : result state :=
  let* s1 := handleSpeak now cleanText s in
  match starts_stream (Speak now cleanText) s with
  | None => Ok s1
  | Some _ =>
      let sl :=
        GeminiService.streamSpeech responseStream failure onChunk error
          (s1, mkLocals true None) in
      Ok (onStreamDone (activeSource (snd sl)) (fst sl))
  end.

(** The arrival a chunk of the response stream stands for, if it carries
    audio that decodes to at least one sample. *)
Definition fragment_of (c : Q * option string) : option (Q * nat) :=
  match LiveVoiceModal.truthy (snd c) with
  | Some data =>
      match Codec.decodeAudioData data with
      | Ok float32 =>
          match length float32 with
          | O => None
          | frames => Some (fst c, frames)
          end
      | Throw _ => None
      end
  | None => None
  end.

(** Whether the stream carries audio data at all, and whether the last
    chunk that does gets scheduled ([before] when no chunk carries any). *)
Definition any_audio (responseStream : list (Q * option string)) : bool :=
  existsb (fun c => match LiveVoiceModal.truthy (snd c) with
                    | Some _ => true
                    | None => false
                    end) responseStream.

Definition last_scheduled (before : bool)
    (responseStream : list (Q * option string)) : bool :=
  fold_left
    (fun acc c => match LiveVoiceModal.truthy (snd c) with
                  | Some _ => match fragment_of c with
                              | Some _ => true
                              | None => false
                              end
                  | None => acc
                  end) responseStream before.

Definition is_some {A} (o : option A) : bool :=
  match o with Some _ => true | None => false end.

(** The state once the callback has cleared the loading flag, which it
    does on the first chunk. *)
Definition loaded (first : bool) (s : state) : state :=
  if first
  then mkState (isSpeaking s) false (audioContextRef s) (sourcesRef s)
         (nextStartTimeRef s) (heap s) (console s)
  else s.

(** An idle bubble: not speaking, not loading. *)
Definition idle (s : state) : Prop :=
  isSpeaking s = false /\ isLoadingAudio s = false.

End Speech.

(** ** geminiService: the streaming loop of [generateStreamResponse] *)

Module Chat.

(** Strings are kept as their bytes; concatenation and equality, the only
    operations the loop performs, do not depend on the encoding. *)
Definition nl : string := String (ascii_of_nat 10) EmptyString.


















End Chat.

(** ** MessageBubble: [extractText], the plain text of a rendered node *)

Module Children.

(** The values [extractText] tells apart: the falsy values other than the
    empty string ([null], [undefined], [false], [0], [NaN]), a string, an
    array, an object with its [props.children] where it has one, and every
    other truthy value (a non-zero number, [true], an object without
    [props]). *)
#[local] Unset Elimination Schemes.
Inductive children : Type :=
| Nothing
| Text (s : string)
| Items (l : list children)
| Element (props_children : option children)
| Other.
#[local] Set Elimination Schemes.

Definition truthy (c : children) : bool :=
  match c with
  | Nothing => false
  | Text s => negb (String.eqb s EmptyString)
  | _ => true
  end.

Fixpoint extractText (c : children) : string :=
  if negb (truthy c) then EmptyString
  else match c with
       | Text s => s
       | Items l => String.concat EmptyString (List.map extractText l)
       | Element (Some c') =>
           if truthy c' then extractText c' else EmptyString
       | _ => EmptyString
       end.

End Children.

(** ** geminiService: the system instruction of [generateStreamResponse] *)

Module Prompt.

Definition dq : string := String (ascii_of_nat 34) EmptyString.

(** The template, byte for byte; the two escaped backquotes of the source
    are the character itself. Strings are kept as UTF-8 bytes: the three
    placeholders searched below are ASCII, and an ASCII byte never occurs
    inside the encoding of another character, so a search finds them exactly
    where a search over UTF-16 code units does. *)
Definition SYSTEM_INSTRUCTION : string :=
  ("
أنت نظام تعليم ذكي متخصص لطلاب الثانوية العامة المصرية (الصفوف: الأول، الثاني، والثالث).

**فلسفة العمل الجديدة**: " ++ dq ++
  "خير الكلام ما قل ودل" ++ dq ++
  ".
مهمتك هي تقديم المعلومات الدراسية بشكل **مختصر جداً، مركز، ومنظم**.

**التعليمات الصارمة**:
1. **الاختصار**: تجنب الشرح المطول والسرد الإنشائي.
2. **العناصر**: اعتمد على القوائم النقطية (Bullet Points) لعرض المعلومات.
3. **المباشرة**: أجب عن السؤال فوراً دون مقدمات طويلة.
4. **التلخيص**: قدم " ++ dq ++
  "الزبدة" ++ dq ++
  " أو الخلاصة المفيدة للامتحان.

**الرسوم البيانية والمخططات (مهم جداً)**:
عندما يتضمن الشرح علاقة بيانية أو إحصائية (مثل: قانون أوم، المنحنيات، العلاقات الطردية والعكسية)، **يجب** عليك إنشاء كود JSON للرسم البياني.
اكتب كود JSON فقط داخل بلوك `chart` وبدون أي تعليقات نهائياً.

قواعد JSON الصارمة:
1. استخدم علامات التنصيص المزدوجة " ++ dq ++
  " " ++ dq ++
  " فقط للمفاتيح والقيم النصية.
2. لا تضع فواصل , في نهاية القوائم أو الكائنات.
3. لا تضع أي تعليقات داخل الـ JSON.
4. تأكد أن الأرقام مكتوبة كأرقام.
")%string.

Definition default_curriculum : string :=
  "المنهج الرسمي لوزارة التربية والتعليم المصرية لهذا الصف.".

(** [list.join(separator)]. *)
Definition join (separator : string) (l : list string) : string :=
  String.concat separator l.

Definition curriculumString (curriculumList : list string) : string :=
  if (0 <? length curriculumList)%nat
  then join (Chat.nl ++ "- ")%string curriculumList
  else default_curriculum.

Section Replace.

(** [GetSubstitution(matched, str, position, replacement)] expands the [$]
    patterns of the replacement; what it returns plays no part below. *)
Variable GetSubstitution : string -> string -> nat -> string -> string.

(** [str.replace(searchString, replaceValue)] with a string pattern: the
    first occurrence only, and the string itself when there is none. *)
Definition replace (searchString replaceValue str : string) : string :=
  match String.index 0 searchString str with
  | None => str
  | Some position =>
      (substring 0 position str
       ++ GetSubstitution searchString str position replaceValue
       ++ substring (position + String.length searchString)
            (String.length str - (position + String.length searchString))
            str)%string
  end.

Definition dynamicInstruction (grade subject : string)
    (curriculumList : list string) : string :=
  replace "[CURRICULUM_LIST]" (curriculumString curriculumList)
    (replace "[SUBJECT]" subject
       (replace "[GRADE_LEVEL]" grade SYSTEM_INSTRUCTION)).

End Replace.

End Prompt.

(** ** Concrete states and inputs used in the examples *)

Module Samples.
Import WebAudio.

(** The base64 text of the two samples 32767 and -32768. *)
Definition two_samples : string := "/38AgA==".

(** Valid base64 for a single byte, which no [Int16Array] can view. *)
Definition one_byte : string := "AA==".

(** A bubble that is speaking, its cursor at 2 seconds. *)
Definition speaking_at_2 : MessageBubble.state :=
  MessageBubble.mkState true false (Some Running) [] 2 [] [].

(** A live session as [connect] and [onopen] leave it. *)
Definition connected : LiveVoiceModal.state :=
  LiveVoiceModal.onopen
    (LiveVoiceModal.connect_session true
       (LiveVoiceModal.connect_stream (Some [LiveVoiceModal.Live])
          (LiveVoiceModal.connect_begin true LiveVoiceModal.initial))).

(** The same session with its cursor at 2 seconds. *)
Definition live_at_2 : LiveVoiceModal.state :=
  LiveVoiceModal.mkState LiveVoiceModal.Connected (Some Running)
    (Some [LiveVoiceModal.Live]) (Some true) (Some true) true 2 true
    (Some Running) [].

End Samples.

(** * Proofs *)

Example encode_two_samples :
  Codec.encodeAudio [JS.Num 1; JS.Num (-1)] = "/38AgA=="%string.
Proof. vm_compute. reflexivity. Qed.

Example encode_half :
  Codec.encodeAudio [JS.Num (1 # 2); JS.NaN; JS.PosInf] = "/z8AAP9/"%string.
Proof. vm_compute. reflexivity. Qed.

Example decode_two_samples :
  Codec.decodeAudioData "/38AgA=="%string
  = Ok [Codec.dequantize 32767; Codec.dequantize (-32768)].
Proof. vm_compute. reflexivity. Qed.

Example decode_odd : Codec.decodeAudioData "AA=="%string = Throw RangeError.
Proof. vm_compute. reflexivity. Qed.

Example decode_bad : Codec.decodeAudioData "A"%string = Throw InvalidCharacterError.
Proof. vm_compute. reflexivity. Qed.

(** ** Bytes and characters *)

Section Bytes.
Import JS.

Lemma charCodeAt_byte c : is_byte (charCodeAt c).
Proof.
  unfold is_byte, charCodeAt.
  pose proof (N_ascii_bounded c). lia.
Qed.

Lemma charCodeAt_fromCharCode b : is_byte b -> charCodeAt (fromCharCode b) = b.
Proof.
  intros Hb. unfold charCodeAt, fromCharCode, is_byte in *.
  rewrite N_ascii_embedding by lia. lia.
Qed.

Lemma fromCharCode_charCodeAt c : fromCharCode (charCodeAt c) = c.
Proof.
  unfold charCodeAt, fromCharCode.
  rewrite N2Z.id. apply ascii_N_embedding.
Qed.

Lemma map_fromCharCode_charCodeAt l : map fromCharCode (map charCodeAt l) = l.
Proof.
  induction l as [|c l IH]; simpl; [reflexivity|].
  now rewrite fromCharCode_charCodeAt, IH.
Qed.

Lemma map_charCodeAt_fromCharCode bs :
  Forall is_byte bs -> map charCodeAt (map fromCharCode bs) = bs.
Proof.
  induction 1 as [|b bs Hb _ IH]; simpl; [reflexivity|].
  now rewrite charCodeAt_fromCharCode, IH.
Qed.

Lemma wrap16_int16 z : is_int16 (wrap16 z).
Proof.
  unfold is_int16, wrap16.
  pose proof (Z.mod_pos_bound z 65536 eq_refl).
  destruct (32768 <=? z mod 65536) eqn:E; lia.
Qed.

Lemma wrap16_id v : is_int16 v -> wrap16 v = v.
Proof.
  unfold is_int16, wrap16. intros Hv.
  destruct (32768 <=? v mod 65536) eqn:E;
    [apply Z.leb_le in E | apply Z.leb_gt in E];
    Z.div_mod_to_equations; lia.
Qed.

Lemma ToInt16_int16 v : is_int16 (ToInt16 v).
Proof.
  destruct v; simpl; try (unfold is_int16; lia). apply wrap16_int16.
Qed.

Lemma bytes_of_int16_bytes v : Forall is_byte (bytes_of_int16 v).
Proof.
  unfold bytes_of_int16, is_byte.
  repeat constructor; Z.div_mod_to_equations; lia.
Qed.

Lemma Uint8Array_bytes l : Forall is_byte (Uint8Array_of_Int16Array l).
Proof.
  unfold Uint8Array_of_Int16Array.
  induction l as [|v l IH]; [constructor|].
  change (Forall is_byte (bytes_of_int16 v ++ flat_map bytes_of_int16 l)).
  apply Forall_app. split; [apply bytes_of_int16_bytes | exact IH].
Qed.

Lemma int16_of_pair_bytes v :
  int16_of_pair ((v mod 65536) mod 256) ((v mod 65536) / 256) = wrap16 v.
Proof.
  unfold int16_of_pair, wrap16.
  replace ((v mod 65536) mod 256 + 256 * ((v mod 65536) / 256))
    with (v mod 65536) by (Z.div_mod_to_equations; lia).
  reflexivity.
Qed.

(** Viewing the bytes of an [Int16Array] as an [Int16Array] again gives the
    same elements. *)
Lemma Int16Array_view_roundtrip l :
  Forall is_int16 l ->
  Int16Array_of_buffer (Uint8Array_of_Int16Array l) = Ok l.
Proof.
  induction 1 as [|v l Hv _ IH]; [reflexivity|].
  unfold Uint8Array_of_Int16Array in *. simpl.
  rewrite IH. simpl.
  now rewrite int16_of_pair_bytes, wrap16_id.
Qed.

Lemma int16_of_pair_int16 lo hi :
  is_byte lo -> is_byte hi -> is_int16 (int16_of_pair lo hi).
Proof.
  unfold is_byte, is_int16, int16_of_pair. intros Hlo Hhi.
  destruct (32768 <=? lo + 256 * hi) eqn:E;
    [apply Z.leb_le in E | apply Z.leb_gt in E]; lia.
Qed.

(** Every element of an [Int16Array] built over bytes is a 16-bit integer;
    stated on all lists by pairs. *)
Lemma Int16Array_of_buffer_int16 :
  forall bytes l,
    Forall is_byte bytes ->
    Int16Array_of_buffer bytes = Ok l -> Forall is_int16 l.
Proof.
  fix IH 1. intros [|lo [|hi rest]] l Hb H; simpl in H.
  - injection H as <-. constructor.
  - discriminate.
  - inversion Hb as [|? ? Hlo Hb']; subst.
    inversion Hb' as [|? ? Hhi Hrest]; subst.
    destruct (Int16Array_of_buffer rest) as [tl|] eqn:E; simpl in H;
      [|discriminate].
    injection H as <-. constructor.
    + now apply int16_of_pair_int16.
    + exact (IH rest tl Hrest E).
Qed.

Lemma Int16Array_of_buffer_length :
  forall bytes l,
    Int16Array_of_buffer bytes = Ok l -> length bytes = (2 * length l)%nat.
Proof.
  fix IH 1. intros [|lo [|hi rest]] l H; simpl in H.
  - injection H as <-. reflexivity.
  - discriminate.
  - destruct (Int16Array_of_buffer rest) as [tl|] eqn:E; simpl in H;
      [|discriminate].
    injection H as <-. simpl. rewrite (IH rest tl E). lia.
Qed.

Lemma Int16Array_of_buffer_odd :
  forall bytes,
    Z.of_nat (length bytes) mod 2 = 1 ->
    Int16Array_of_buffer bytes = Throw RangeError.
Proof.
  fix IH 1. intros [|lo [|hi rest]] H.
  - discriminate.
  - reflexivity.
  - simpl. rewrite (IH rest); [reflexivity|].
    simpl length in H. rewrite !Nat2Z.inj_succ in H.
    Z.div_mod_to_equations; lia.
Qed.

End Bytes.

(** ** Base64 *)

Section Base64Facts.
Import JS Base64.

(** Lists taken three elements at a time, the way [encode] reads them. *)
Lemma list_ind3 {A} (P : list A -> Prop) :
  P [] -> (forall a, P [a]) -> (forall a b, P [a; b]) ->
  (forall a b c rest, P rest -> P (a :: b :: c :: rest)) ->
  forall l, P l.
Proof.
  intros H0 H1 H2 H3. fix IH 1.
  intros [|a [|b [|c rest]]];
    [apply H0 | apply H1 | apply H2 | apply H3, IH].
Qed.

Lemma sextet_cases (P : Z -> bool) :
  forallb (fun n => P (Z.of_nat n)) (seq 0 64) = true ->
  forall i, 0 <= i < 64 -> P i = true.
Proof.
  intros H i Hi. rewrite forallb_forall in H.
  specialize (H (Z.to_nat i)). rewrite Z2Nat.id in H by lia.
  apply H, in_seq. lia.
Qed.

Lemma value_digit i : 0 <= i < 64 -> value (digit i) = Some i.
Proof.
  intros Hi.
  pose proof (sextet_cases
    (fun i => match value (digit i) with Some v => v =? i | None => false end)
    eq_refl i Hi) as H.
  simpl in H. destruct (value (digit i)); [|discriminate].
  apply Z.eqb_eq in H. now subst.
Qed.

Lemma digit_not_whitespace i :
  0 <= i < 64 -> is_ascii_whitespace (digit i) = false.
Proof.
  intros Hi. apply negb_true_iff.
  exact (sextet_cases (fun i => negb (is_ascii_whitespace (digit i)))
           eq_refl i Hi).
Qed.

Lemma digit_not_pad i : 0 <= i < 64 -> is_pad (digit i) = false.
Proof.
  intros Hi. apply negb_true_iff.
  exact (sextet_cases (fun i => negb (is_pad (digit i))) eq_refl i Hi).
Qed.

Lemma is_pad_pad : is_pad pad = true.
Proof. reflexivity. Qed.

(** Range of the four sextets cut from three bytes. *)
Ltac sextet := unfold is_byte in *; Z.div_mod_to_equations; lia.

Lemma encode_length bs : Z.of_nat (length (encode bs)) mod 4 = 0.
Proof.
  induction bs as [| a | a b | a b c rest IH] using list_ind3;
    try reflexivity.
  change (encode (a :: b :: c :: rest))
    with (digit (a / 4) :: digit (a mod 4 * 16 + b / 16)
            :: digit (b mod 16 * 4 + c / 64) :: digit (c mod 64)
            :: encode rest).
  simpl length. rewrite !Nat2Z.inj_succ.
  Z.div_mod_to_equations; lia.
Qed.

Lemma encode_no_whitespace bs :
  Forall is_byte bs -> strip_whitespace (encode bs) = encode bs.
Proof.
  unfold strip_whitespace.
  induction bs as [| a | a b | a b c rest IH] using list_ind3; intros Hb.
  - reflexivity.
  - inversion Hb; subst. cbn [encode List.filter].
    repeat (rewrite digit_not_whitespace by sextet). reflexivity.
  - inversion Hb as [|? ? Ha Hb']; subst. inversion Hb'; subst.
    cbn [encode List.filter].
    repeat (rewrite digit_not_whitespace by sextet). reflexivity.
  - inversion Hb as [|? ? Ha Hb']; subst.
    inversion Hb' as [|? ? Hb0 Hb'']; subst.
    inversion Hb'' as [|? ? Hc Hrest]; subst.
    change (encode (a :: b :: c :: rest))
      with (digit (a / 4) :: digit (a mod 4 * 16 + b / 16)
              :: digit (b mod 16 * 4 + c / 64) :: digit (c mod 64)
              :: encode rest).
    cbn [List.filter].
    repeat (rewrite digit_not_whitespace by sextet). cbn [negb].
    now rewrite (IH Hrest).
Qed.

Lemma drop_end_padding_cons2 x y l :
  is_pad y = false -> l = [] \/ (2 <= length l)%nat ->
  drop_end_padding (x :: y :: l) = x :: y :: drop_end_padding l.
Proof.
  intros Hy [->|Hl].
  - simpl. now rewrite Hy.
  - destruct l as [|e1 [|e2 l]]; simpl in Hl; try lia. reflexivity.
Qed.

Lemma encode_nil_or_long bs :
  encode bs = [] \/ (2 <= length (encode bs))%nat.
Proof.
  destruct bs as [|a [|b [|c rest]]]; simpl; auto; right; lia.
Qed.

(** Decoding what [encode] produced, padding removed, gives the bytes
    back. *)
Lemma decode_data_encode bs :
  Forall is_byte bs ->
  decode_data (drop_end_padding (encode bs)) = Some bs.
Proof.
  induction bs as [| a | a b | a b c rest IH] using list_ind3; intros Hb.
  - reflexivity.
  - inversion Hb; subst.
    cbn [encode]. rewrite drop_end_padding_cons2;
      [|apply digit_not_pad; sextet | right; simpl; lia].
    unfold decode_data. change (drop_end_padding [pad; pad]) with (@nil ascii).
    cbn -[Z.div Z.modulo Z.mul Z.add].
    repeat (rewrite value_digit by sextet). cbn -[Z.div Z.modulo Z.mul Z.add].
    do 2 f_equal. sextet.
  - inversion Hb as [|? ? Ha Hb']; subst. inversion Hb'; subst.
    cbn [encode]. rewrite drop_end_padding_cons2;
      [|apply digit_not_pad; sextet | right; simpl; lia].
    assert (Hp : is_pad (digit (b mod 16 * 4)) = false)
      by (apply digit_not_pad; sextet).
    cbn [drop_end_padding]. rewrite is_pad_pad, Hp.
    unfold decode_data. cbn -[Z.div Z.modulo Z.mul Z.add].
    repeat (rewrite value_digit by sextet). cbn -[Z.div Z.modulo Z.mul Z.add].
    repeat f_equal; sextet.
  - inversion Hb as [|? ? Ha Hb']; subst.
    inversion Hb' as [|? ? Hb0 Hb'']; subst.
    inversion Hb'' as [|? ? Hc Hrest]; subst.
    specialize (IH Hrest).
    change (encode (a :: b :: c :: rest))
      with (digit (a / 4) :: digit (a mod 4 * 16 + b / 16)
              :: digit (b mod 16 * 4 + c / 64) :: digit (c mod 64)
              :: encode rest).
    rewrite drop_end_padding_cons2;
      [|apply digit_not_pad; sextet | right; simpl; lia].
    rewrite drop_end_padding_cons2;
      [|apply digit_not_pad; sextet | apply encode_nil_or_long].
    unfold decode_data in *.
    set (d := drop_end_padding (encode rest)) in *.
    replace (Z.of_nat (length (_ :: _ :: _ :: _ :: d)) mod 4)
      with (Z.of_nat (length d) mod 4)
      by (simpl length; rewrite !Nat2Z.inj_succ; Z.div_mod_to_equations; lia).
    destruct (Z.of_nat (length d) mod 4 =? 1); [discriminate|].
    cbn [values]. repeat (rewrite value_digit by sextet).
    destruct (values d) as [vs|]; [|discriminate].
    cbn [option_map decode] in *. injection IH as ->.
    repeat f_equal; sextet.
Qed.

Theorem atob_btoa binary : atob (btoa binary) = Ok binary.
Proof.
  unfold atob, btoa.
  rewrite list_ascii_of_string_of_list_ascii.
  set (bs := map charCodeAt (list_ascii_of_string binary)).
  assert (Hb : Forall is_byte bs).
  { unfold bs. induction (list_ascii_of_string binary); constructor;
      [apply charCodeAt_byte | assumption]. }
  rewrite encode_no_whitespace by exact Hb.
  unfold strip_padding. rewrite encode_length. cbn [Z.eqb].
  rewrite decode_data_encode by exact Hb.
  unfold bs. rewrite map_fromCharCode_charCodeAt.
  now rewrite string_of_list_ascii_of_string.
Qed.

End Base64Facts.

(** ** SampleCodec *)

Section CodecFacts.
Import JS Codec.

Lemma quantize_int16 x : is_int16 (quantize x).
Proof. unfold quantize. apply ToInt16_int16. Qed.

(** Decoding an encoded frame dequantizes the quantized samples: the byte
    view, the binary string and the base64 text are all lossless. *)
Lemma decode_encode x :
  decodeAudioData (encodeAudio x)
  = Ok (map (fun s => dequantize (quantize s)) x).
Proof.
  unfold decodeAudioData, encodeAudio.
  rewrite atob_btoa. cbn [bind].
  rewrite list_ascii_of_string_of_list_ascii.
  rewrite map_charCodeAt_fromCharCode by apply Uint8Array_bytes.
  rewrite Int16Array_view_roundtrip.
  - cbn [bind]. now rewrite map_map.
  - induction x; constructor; [apply quantize_int16 | assumption].
Qed.

Lemma truncate_nonneg q :
  (0 <= q)%Q ->
  (inject_Z (truncate q) <= q /\ q < inject_Z (truncate q) + 1)%Q.
Proof.
  intros Hq. unfold truncate.
  destruct (Qlt_le_dec q 0) as [Hlt|_]; [lra|].
  pose proof (Qfloor_le q). pose proof (Qlt_floor q) as Hf.
  rewrite inject_Z_plus in Hf. split; [assumption|exact Hf].
Qed.

Lemma truncate_neg q :
  (q < 0)%Q ->
  (q <= inject_Z (truncate q) /\ inject_Z (truncate q) < q + 1)%Q.
Proof.
  intros Hq. unfold truncate.
  destruct (Qlt_le_dec q 0) as [_|Hge]; [|lra].
  pose proof (Qle_ceiling q). pose proof (Qceiling_lt q) as Hc.
  unfold Z.sub in Hc. rewrite inject_Z_plus, inject_Z_opp in Hc.
  change (inject_Z 1) with 1%Q in Hc.
  split; [assumption|lra].
Qed.

Lemma int16_of_Q_bounds t :
  (-32768 <= inject_Z t)%Q -> (inject_Z t <= 32767)%Q -> is_int16 t.
Proof.
  intros Hlo Hhi. unfold is_int16.
  change (-32768)%Q with (inject_Z (-32768)) in Hlo.
  change 32767%Q with (inject_Z 32767) in Hhi.
  rewrite <- Zle_Qle in Hlo, Hhi. lia.
Qed.

Lemma Z_lt_of_Q a b : (inject_Z a < inject_Z b + 1)%Q -> a <= b.
Proof.
  intros H. change 1%Q with (inject_Z 1) in H.
  rewrite <- inject_Z_plus, <- Zlt_Qlt in H. lia.
Qed.

(** What the first loop of [encodeAudio] stores for a sample of the
    nominal range: the truncation of the sample scaled by 32768 when it is
    negative and by 32767 otherwise. *)
Lemma quantize_unit q :
  (-1 <= q <= 1)%Q ->
  let t := inject_Z (quantize (Num q)) in
  ((q < 0 -> q * 32768 <= t /\ t < q * 32768 + 1) /\
   (0 <= q -> t <= q * 32767 /\ q * 32767 < t + 1))%Q.
Proof.
  intros [Hlo Hhi]. unfold quantize. cbn [Math_min Math_max].
  assert (Hs : (fmax (-1) (fmin 1 q) == q)%Q).
  { unfold fmax, fmin. destruct (Qlt_le_dec q 1).
    - destruct (Qlt_le_dec (-1) q); lra.
    - destruct (Qlt_le_dec (-1) 1); lra. }
  set (s := fmax (-1) (fmin 1 q)) in *. cbn [lt].
  destruct (Qlt_le_dec s 0) as [Hneg|Hpos]; cbn [mul ToInt16].
  - destruct (truncate_neg (s * 32768)) as [H1 H2]; [lra|].
    rewrite wrap16_id.
    + split; intros; lra.
    + apply int16_of_Q_bounds; [lra|].
      enough (truncate (s * 32768) <= 0) as Hz
          by (rewrite Zle_Qle in Hz; change (inject_Z 0) with 0%Q in Hz; lra).
      apply Z_lt_of_Q. change (inject_Z 0) with 0%Q. lra.
  - destruct (truncate_nonneg (s * 32767)) as [H1 H2]; [lra|].
    rewrite wrap16_id.
    + split; intros; lra.
    + apply int16_of_Q_bounds; [|lra].
      enough (-1 <= truncate (s * 32767) - 0) as Hz
          by (rewrite Zle_Qle in Hz; unfold Z.sub in Hz;
              rewrite inject_Z_plus in Hz;
              change (inject_Z (-1)) with (-1)%Q in Hz;
              change (inject_Z (-0)) with 0%Q in Hz; lra).
      enough (0 <= truncate (s * 32767)) by lia.
      rewrite Zle_Qle. change (inject_Z 0) with 0%Q.
      unfold truncate. destruct (Qlt_le_dec (s * 32767) 0); [lra|].
      change 0%Q with (inject_Z 0). rewrite <- Zle_Qle.
      apply Qfloor_resp_le with (x := 0%Q) in Hpos.
      change (Qfloor 0) with 0 in Hpos.
      assert (Hm : (0 <= s * 32767)%Q) by lra.
      apply Qfloor_resp_le in Hm. exact Hm.
Qed.

(** The error of one sample through encode and decode. *)
Lemma sample_error q :
  (-1 <= q <= 1)%Q ->
  (Qabs (dequantize (quantize (Num q)) - q) < 2 * quantization_step)%Q.
Proof.
  intros Hq. pose proof (quantize_unit q Hq) as [Hneg Hpos].
  unfold dequantize, quantization_step.
  set (t := inject_Z (quantize (Num q))) in *.
  apply Qabs_Qlt_condition.
  assert (E : (t / 32768 == t * (1 # 32768))%Q) by reflexivity.
  rewrite E. clear E.
  destruct (Qlt_le_dec q 0) as [Hlt|Hge].
  - destruct (Hneg Hlt). split; lra.
  - destruct (Hpos Hge). split; lra.
Qed.

Lemma dequantize_range v : is_int16 v -> decoded_range (dequantize v).
Proof.
  unfold is_int16, decoded_range, dequantize. intros [Hlo Hhi].
  rewrite Zle_Qle in Hlo, Hhi.
  change (inject_Z (-32768)) with (-32768)%Q in Hlo.
  change (inject_Z 32767) with 32767%Q in Hhi.
  assert (E : (inject_Z v / 32768 == inject_Z v * (1 # 32768))%Q)
    by reflexivity.
  rewrite E. split; lra.
Qed.

End CodecFacts.

(** ** Claims on the codec *)

Section CodecClaims.
Import JS Codec.

Lemma sample_error_negative q :
  (-1 <= q < 0)%Q ->
  (Qabs (dequantize (quantize (Num q)) - q) < quantization_step)%Q.
Proof.
  intros [Hlo Hneg].
  assert (Hq : (-1 <= q <= 1)%Q) by lra.
  pose proof (quantize_unit q Hq) as [Hn _].
  unfold dequantize, quantization_step.
  set (t := inject_Z (quantize (Num q))) in *.
  apply Qabs_Qlt_condition.
  assert (E : (t / 32768 == t * (1 # 32768))%Q) by reflexivity.
  rewrite E. clear E.
  destruct (Hn Hneg). split; lra.
Qed.

Lemma Int16Array_of_buffer_even :
  forall bytes,
    Z.of_nat (length bytes) mod 2 = 0 ->
    exists l, Int16Array_of_buffer bytes = Ok l.
Proof.
  fix IH 1. intros [|lo [|hi rest]] H.
  - now exists [].
  - discriminate.
  - destruct (IH rest) as [tl Htl].
    + simpl length in H. rewrite !Nat2Z.inj_succ in H.
      Z.div_mod_to_equations; lia.
    + exists (int16_of_pair lo hi :: tl). simpl. now rewrite Htl.
Qed.

Lemma map_charCodeAt_bytes l : Forall is_byte (map charCodeAt l).
Proof. induction l; constructor; [apply charCodeAt_byte | assumption]. Qed.

Lemma decodeAudioData_range chunk y :
  decodeAudioData chunk = Ok y -> Forall decoded_range y.
Proof.
  unfold decodeAudioData. intros H.
  destruct (Base64.atob chunk) as [binary|]; [|discriminate].
  cbn [bind] in H.
  destruct (Int16Array_of_buffer _) as [int16|] eqn:E; [|discriminate].
  cbn [bind] in H. injection H as <-.
  apply Int16Array_of_buffer_int16 in E; [|apply map_charCodeAt_bytes].
  induction E; constructor; [now apply dequantize_range | assumption].
Qed.

Lemma decodeAudioData_well_formed chunk :
  well_formed chunk -> exists y, decodeAudioData chunk = Ok y.
Proof.
  intros (binary & Hatob & Heven). unfold decodeAudioData.
  rewrite Hatob. cbn [bind].
  destruct (Int16Array_of_buffer_even (map charCodeAt (list_ascii_of_string binary)))
    as [l Hl].
  - rewrite length_map. exact Heven.
  - rewrite Hl. cbn [bind]. eauto.
Qed.

Lemma decodeAudioData_malformed chunk :
  malformed chunk -> exists e, decodeAudioData chunk = Throw e.
Proof.
  unfold decodeAudioData. intros [H|(binary & H & Hodd)]; rewrite H; cbn [bind].
  - eauto.
  - rewrite Int16Array_of_buffer_odd; [cbn [bind]; eauto|].
    rewrite length_map. exact Hodd.
Qed.

(** C2, as the specification states it, fails: a sample just below full
    scale comes back one and a half quantization steps away.  The sample
    [1 - 2^-16] is a float32 value of the nominal range. *)
Lemma roundtrip_error_exceeds_one_step :
  Forall unit_sample [Num (65535 # 65536)] /\
  decodeAudioData (encodeAudio [Num (65535 # 65536)])
    = Ok [dequantize 32766] /\
  ~ error_at_most quantization_step [Num (65535 # 65536)] [dequantize 32766].
Proof.
  split; [|split].
  - constructor; [|constructor]. split; discriminate.
  - vm_compute. reflexivity.
  - intros H. inversion H as [|? ? ? ? Hs _]; subst.
    specialize (Hs _ eq_refl). vm_compute in Hs. now apply Hs.
Qed.

(** C2 (amended): for every frame of samples in [-1, 1], the empty frame
    included, [decodeAudioData (encodeAudio x)] succeeds with as many
    samples as [x], and each sample is reconstructed with an error strictly
    below two quantization steps (2/32768); negative samples stay strictly
    below one step. *)
Theorem roundtrip_length_and_error (x : list number) :
  Forall unit_sample x ->
  exists y,
    decodeAudioData (encodeAudio x) = Ok y /\
    length y = length x /\
    error_below (2 * quantization_step) quantization_step x y.
Proof.
  intros Hx. eexists. split; [apply decode_encode|].
  split; [apply length_map|].
  unfold error_below.
  induction Hx as [|s x Hs _ IH]; cbn [map]; constructor; [|exact IH].
  intros q ->. cbn [unit_sample] in Hs. split.
  - now apply sample_error.
  - intros Hneg. apply sample_error_negative. lra.
Qed.

Lemma roundtrip_length_and_error_witness :
  exists y,
    decodeAudioData (encodeAudio [Num (65535 # 65536); Num (-1 # 3)]) = Ok y /\
    length y = 2%nat /\
    error_below (2 * quantization_step) quantization_step
      [Num (65535 # 65536); Num (-1 # 3)] y.
Proof.
  apply (roundtrip_length_and_error [Num (65535 # 65536); Num (-1 # 3)]).
  repeat constructor; discriminate.
Defined.

(** C10: decoding a well-formed chunk succeeds and every decoded sample
    lies in [-1, 32767/32768]; in particular whatever frame is encoded,
    finite or not, in range or not, decoding the result yields only samples
    of that interval. *)
Theorem decoded_samples_in_range :
  (forall chunk, well_formed chunk ->
     exists y, decodeAudioData chunk = Ok y /\ Forall decoded_range y) /\
  (forall x, exists y,
     decodeAudioData (encodeAudio x) = Ok y /\
     length y = length x /\ Forall decoded_range y).
Proof.
  split.
  - intros chunk Hwf.
    destruct (decodeAudioData_well_formed chunk Hwf) as [y Hy].
    exists y. split; [exact Hy | exact (decodeAudioData_range _ _ Hy)].
  - intros x. eexists. split; [apply decode_encode|].
    split; [apply length_map|].
    exact (decodeAudioData_range _ _ (decode_encode x)).
Qed.

Lemma decoded_samples_in_range_witness :
  (exists y, decodeAudioData "/38AgA==" = Ok y /\ Forall decoded_range y) /\
  (exists y, decodeAudioData (encodeAudio [Num 7; NaN; NegInf; Num (-3)]) = Ok y /\
     length y = 4%nat /\ Forall decoded_range y).
Proof.
  split.
  - apply (proj1 decoded_samples_in_range "/38AgA=="%string).
    exists (String (ascii_of_nat 255) (String (ascii_of_nat 127)
             (String (ascii_of_nat 0) (String (ascii_of_nat 128) ""))))%string.
    split; reflexivity.
  - apply (proj2 decoded_samples_in_range [Num 7; NaN; NegInf; Num (-3)]).
Defined.

End CodecClaims.

(** ** Web Audio nodes *)

Section WebAudioFacts.
Import JS WebAudio.

Lemma fmax_l a b : (a <= fmax a b)%Q.
Proof. unfold fmax. destruct (Qlt_le_dec a b); lra. Qed.

Lemma fmax_r a b : (b <= fmax a b)%Q.
Proof. unfold fmax. destruct (Qlt_le_dec a b); lra. Qed.

Lemma fmax_stall a b : (b <= a)%Q -> fmax a b = a.
Proof. unfold fmax. intros H. destruct (Qlt_le_dec a b); [lra|reflexivity]. Qed.

Lemma duration_nonneg n : (0 <= duration n)%Q.
Proof.
  unfold duration, sampleRate.
  assert (E : (inject_Z (Z.of_nat n) / 24000
               == inject_Z (Z.of_nat n) * (1 # 24000))%Q) by reflexivity.
  rewrite E.
  assert (H : (0 <= inject_Z (Z.of_nat n))%Q).
  { change 0%Q with (inject_Z 0). rewrite <- Zle_Qle. lia. }
  lra.
Qed.

Lemma timeline_app h1 h2 : timeline (h1 ++ h2) = timeline h1 ++ timeline h2.
Proof.
  induction h1 as [|n h1 IH]; [reflexivity|].
  cbn [app timeline]. destruct (when n); cbn [app]; now rewrite IH.
Qed.

(** Creating a node, starting it and attaching a handler leaves the old
    nodes alone and appends one scheduled node. *)
Lemma create_start heap buffer t h :
  set_onended (length heap) h
    (start (length heap) t (fst (createBufferSource buffer heap)))
  = heap ++ [mkNode buffer (Some t) Scheduled h].
Proof.
  unfold set_onended, start, createBufferSource. cbn [fst].
  rewrite <- (Nat.add_0_r (length heap)).
  rewrite alter_app_r.
  replace (length heap + 0)%nat with (length (heap) + 0)%nat by reflexivity.
  rewrite alter_app_r. reflexivity.
Qed.

Lemma create_start_plain heap buffer t :
  start (length heap) t (fst (createBufferSource buffer heap))
  = heap ++ [mkNode buffer (Some t) Scheduled NoHandler].
Proof.
  unfold start, createBufferSource. cbn [fst].
  rewrite <- (Nat.add_0_r (length heap)).
  rewrite alter_app_r. reflexivity.
Qed.


Lemma alter_fixed {A} (f : A -> A) (l : list A) (i : nat) :
  (forall x, l !! i = Some x -> f x = x) -> alter f i l = l.
Proof.
  revert i. induction l as [|a l IH]; intros [|i] H; cbn; try reflexivity.
  - f_equal. now apply H.
  - f_equal. apply IH. exact H.
Qed.

(** A [stop] inside [try]/[catch] never fails, and halts the node if it
    was scheduled. *)
Lemma stop_caught source heap :
  try_catch (stop source heap) (fun _ => Ok heap)
  = Ok (alter halt_node source heap).
Proof.
  unfold stop. destruct (heap !! source) as [n|] eqn:E.
  - destruct (playback_state n) eqn:Ep; cbn [try_catch]; f_equal;
      try (symmetry; apply alter_fixed; intros x Hx;
           rewrite E in Hx; injection Hx as <-;
           unfold halt_node; now rewrite Ep).
    apply list_alter_ext; [|reflexivity].
    intros x Hx. rewrite E in Hx. injection Hx as <-.
    unfold halt_node. now rewrite Ep.
  - cbn [try_catch]. f_equal. symmetry. apply alter_fixed.
    intros x Hx. rewrite E in Hx. discriminate.
Qed.

Lemma forEach_stop sources heap :
  forEach sources
    (fun source h => try_catch (stop source h) (fun _ => Ok h)) heap
  = Ok (halt_all sources heap).
Proof.
  revert heap. induction sources as [|source sources IH]; intros heap.
  - reflexivity.
  - cbn [forEach]. rewrite stop_caught. cbn [bind]. rewrite IH. reflexivity.
Qed.

Lemma halt_all_length sources heap :
  length (halt_all sources heap) = length heap.
Proof.
  revert heap. induction sources as [|source sources IH]; intros heap.
  - reflexivity.
  - unfold halt_all in *. cbn [fold_left]. rewrite IH. apply length_alter.
Qed.

Lemma halt_all_lookup_other sources heap (i : nat) :
  ~ In i sources -> halt_all sources heap !! i = heap !! i.
Proof.
  revert heap. induction sources as [|source sources IH]; intros heap Hi.
  - reflexivity.
  - unfold halt_all in *. cbn [fold_left]. rewrite IH.
    + apply list_lookup_alter_ne. intros ->. apply Hi. now left.
    + intros H. apply Hi. now right.
Qed.



End WebAudioFacts.

(** ** The scheduling recurrence, for any component that follows it *)

Section Scheduler.
Import JS WebAudio.

Context {S A : Type}.
Variable heap_of : S -> list node.
Variable cursor_of : S -> Q.
Variable arrive : A -> S -> S.

Hypothesis arrive_spec :
  forall a s,
    skips (heap_of s) (cursor_of s)
          (heap_of (arrive a s)) (cursor_of (arrive a s)) \/
    schedules_one (heap_of s) (cursor_of s)
          (heap_of (arrive a s)) (cursor_of (arrive a s)).

Let run (arrivals : list A) (s : S) : S :=
  fold_left (fun s a => arrive a s) arrivals s.

(** Every fragment scheduled during a run starts at or after the cursor the
    run began with, and the fragments follow one another. *)
Lemma run_appends arrivals :
  forall s, exists new,
    heap_of (run arrivals s) = heap_of s ++ new /\
    StronglySorted follows (timeline new) /\
    Forall (fun f => (cursor_of s <= start_of f)%Q) (timeline new).
Proof.
  induction arrivals as [|a arrivals IH]; intros s.
  - exists []. cbn. rewrite app_nil_r. repeat split; constructor.
  - change (run (a :: arrivals) s) with (run arrivals (arrive a s)).
    destruct (IH (arrive a s)) as (new & Hheap & Hsorted & Hafter).
    destruct (arrive_spec a s) as [[Hh Hc]|(now & frames & h & Hh & Hc)].
    + exists new. rewrite Hheap, Hh. rewrite Hc in Hafter. auto.
    + set (t := fmax now (cursor_of s)) in *.
      exists (mkNode frames (Some t) Scheduled h :: new).
      rewrite Hheap, Hh, <- app_assoc. split; [reflexivity|].
      cbn [timeline when WebAudio.frames].
      pose proof (duration_nonneg frames) as Hd.
      pose proof (fmax_r now (cursor_of s)) as Ht. fold t in Ht.
      rewrite Hc in Hafter. split.
      * constructor; [exact Hsorted|].
        eapply List.Forall_impl; [|exact Hafter].
        intros f Hf. unfold follows, start_of, end_of in *. cbn [fst snd].
        split; lra.
      * constructor; [exact Ht|].
        eapply List.Forall_impl; [|exact Hafter].
        intros f Hf. cbn beta in *. lra.
Qed.

Lemma run_no_overlap arrivals s :
  StronglySorted follows
    (new_fragments (heap_of s) (heap_of (run arrivals s))).
Proof.
  destruct (run_appends arrivals s) as (new & Hheap & Hsorted & _).
  unfold new_fragments. rewrite Hheap, drop_app_length. exact Hsorted.
Qed.

(** The cursor never moves back during a run. *)
Lemma run_cursor_monotone arrivals :
  forall s, (cursor_of s <= cursor_of (run arrivals s))%Q.
Proof.
  induction arrivals as [|a arrivals IH]; intros s; [cbn; lra|].
  change (run (a :: arrivals) s) with (run arrivals (arrive a s)).
  specialize (IH (arrive a s)).
  destruct (arrive_spec a s) as [[_ Hc]|(now & frames & h & _ & Hc)].
  - rewrite Hc in IH. exact IH.
  - pose proof (duration_nonneg frames).
    pose proof (fmax_r now (cursor_of s)). rewrite Hc in IH. lra.
Qed.

End Scheduler.

(** ** MessageBubble *)

Section MessageBubbleFacts.
Import JS WebAudio MessageBubble.

Lemma stopAudio_stopped s : stopAudio s = Ok (stopped s).
Proof. unfold stopAudio. rewrite forEach_stop. reflexivity. Qed.

(** The decoding written out in [scheduleChunk] is [decodeAudioData]. *)
Lemma scheduleChunk_decodes now base64 s c :
  audioContextRef s = Some c ->
  scheduleChunk now base64 s
  = match Codec.decodeAudioData base64 with
    | Ok float32 =>
        match length float32 with
        | O => Ok (logged s, None)
        | frames => Ok (scheduled now frames s, Some (length (heap s)))
        end
    | Throw _ => Ok (logged s, None)
    end.
Proof.
  intros Hc. unfold scheduleChunk, Codec.decodeAudioData, logged, scheduled.
  rewrite Hc.
  destruct (Base64.atob base64) as [binary|e]; cbn [bind try_catch];
    [|reflexivity].
  destruct (Int16Array_of_buffer _) as [int16|e]; cbn [bind try_catch];
    [|reflexivity].
  destruct (length (map Codec.dequantize int16)) as [|n] eqn:El;
    cbn [createBuffer bind try_catch]; [reflexivity|].
  pose proof (create_start (heap s) (Datatypes.S n)
                (fmax now (nextStartTimeRef s)) RemoveFromSources) as Hn.
  unfold createBufferSource in *. cbn [fst] in Hn. rewrite Hn.
  reflexivity.
Qed.

Lemma scheduleChunk_cases now base64 s :
  scheduleChunk now base64 s = Ok (s, None) \/
  scheduleChunk now base64 s = Ok (logged s, None) \/
  exists frames,
    (0 < frames)%nat /\
    scheduleChunk now base64 s
    = Ok (scheduled now frames s, Some (length (heap s))).
Proof.
  destruct (audioContextRef s) as [c|] eqn:Hc.
  - rewrite (scheduleChunk_decodes now base64 s c Hc).
    destruct (Codec.decodeAudioData base64) as [float32|e]; [|auto].
    destruct (length float32) as [|n]; [auto|].
    right; right. exists (Datatypes.S n). split; [lia|reflexivity].
  - left. unfold scheduleChunk. now rewrite Hc.
Qed.

Lemma arrive_spec_bubble a s :
  skips (heap s) (nextStartTimeRef s)
        (heap (arrive a s)) (nextStartTimeRef (arrive a s)) \/
  schedules_one (heap s) (nextStartTimeRef s)
        (heap (arrive a s)) (nextStartTimeRef (arrive a s)).
Proof.
  unfold arrive.
  destruct (scheduleChunk_cases (fst a) (snd a) s)
    as [H|[H|(frames & _ & H)]]; rewrite H.
  - left. split; reflexivity.
  - left. split; reflexivity.
  - right. exists (fst a), frames, RemoveFromSources. split; reflexivity.
Qed.

Lemma arrive_context a s :
  audioContextRef (arrive a s) = audioContextRef s.
Proof.
  unfold arrive.
  destruct (scheduleChunk_cases (fst a) (snd a) s)
    as [H|[H|(frames & _ & H)]]; rewrite H; reflexivity.
Qed.

(** The fragments a stream of chunks leaves are those of the recurrence,
    run on the chunks that decode. *)
Lemma deliver_follows_plan arrivals :
  forall s c,
    audioContextRef s = Some c ->
    new_fragments (heap s) (heap (deliver arrivals s))
    = plan (nextStartTimeRef s) (omap fragment_of arrivals).
Proof.
  induction arrivals as [|a arrivals IH]; intros s c Hc.
  - unfold new_fragments. cbn. now rewrite drop_all.
  - change (deliver (a :: arrivals) s) with (deliver arrivals (arrive a s)).
    assert (Hc1 : audioContextRef (arrive a s) = Some c)
      by now rewrite arrive_context.
    specialize (IH (arrive a s) c Hc1).
    destruct (run_appends heap nextStartTimeRef arrive arrive_spec_bubble
                arrivals (arrive a s)) as (new & Hnew & _).
    fold (deliver arrivals (arrive a s)) in Hnew.
    unfold new_fragments in *. rewrite Hnew in *.
    rewrite drop_app_length in IH.
    unfold arrive in *. cbn [omap list_omap]. unfold fragment_of at 1.
    rewrite (scheduleChunk_decodes (fst a) (snd a) s c Hc) in *.
    destruct (Codec.decodeAudioData (snd a)) as [float32|e].
    + destruct (length float32) as [|n].
      * cbn [logged heap nextStartTimeRef] in *.
        rewrite drop_app_length. exact IH.
      * cbn [scheduled heap nextStartTimeRef] in *.
        rewrite <- app_assoc, drop_app_length.
        cbn [app timeline when frames plan]. now rewrite IH.
    + cbn [logged heap nextStartTimeRef] in *.
      rewrite drop_app_length. exact IH.
Qed.

(** A malformed chunk is dropped and logged, and nothing else changes. *)
Lemma scheduleChunk_malformed now base64 s c :
  audioContextRef s = Some c -> Codec.malformed base64 ->
  scheduleChunk now base64 s = Ok (logged s, None).
Proof.
  intros Hc Hbad. rewrite (scheduleChunk_decodes now base64 s c Hc).
  destruct (decodeAudioData_malformed base64 Hbad) as [e ->]. reflexivity.
Qed.

End MessageBubbleFacts.

(** ** LiveVoiceModal *)

Section LiveVoiceModalFacts.
Import JS WebAudio LiveVoiceModal.

Lemma onmessage_decoded now random data s c float32 :
  mountedRef s = true -> audioContextRef s = Some c ->
  data <> EmptyString ->
  Codec.decodeAudioData data = Ok float32 -> float32 <> [] ->
  onmessage now random (Some data) s
  = Ok (scheduled now (length float32) s, activity random).
Proof.
  intros Hm Hc Hdata Hdec Hne. unfold onmessage, scheduled. rewrite Hm, Hc.
  destruct data as [|ch data]; [congruence|]. cbn [truthy].
  rewrite Hdec. cbn [bind].
  destruct float32 as [|x float32]; [congruence|].
  cbn [length createBuffer bind].
  pose proof (create_start_plain (heap s) (Datatypes.S (length float32))
                (fmax now (nextStartTimeRef s))) as Hn.
  unfold createBufferSource in *. cbn [fst] in Hn. rewrite Hn.
  reflexivity.
Qed.

(** Nothing in [onmessage] catches a decoding failure. *)
Lemma onmessage_undecodable now random data s c e :
  mountedRef s = true -> audioContextRef s = Some c ->
  data <> EmptyString ->
  Codec.decodeAudioData data = Throw e ->
  onmessage now random (Some data) s = Throw e.
Proof.
  intros Hm Hc Hdata Hdec. unfold onmessage. rewrite Hm, Hc.
  destruct data as [|ch data]; [congruence|]. cbn [truthy].
  rewrite Hdec. reflexivity.
Qed.

Lemma onmessage_cases now random audioData s :
  (exists effects, onmessage now random audioData s = Ok (s, effects)) \/
  (exists e, onmessage now random audioData s = Throw e) \/
  exists frames,
    (0 < frames)%nat /\
    onmessage now random audioData s
    = Ok (scheduled now frames s, activity random).
Proof.
  unfold onmessage, scheduled. destruct (mountedRef s) eqn:Hm; [|eauto].
  destruct (truthy audioData) as [data|] eqn:Hd; [|eauto].
  destruct (audioContextRef s) as [c|] eqn:Hc; [|eauto].
  destruct (Codec.decodeAudioData data) as [float32|e]; cbn [bind];
    [|eauto].
  destruct (length float32) as [|n]; cbn [createBuffer bind]; [eauto|].
  right; right. exists (Datatypes.S n). split; [lia|].
  pose proof (create_start_plain (heap s) (Datatypes.S n)
                (fmax now (nextStartTimeRef s))) as Hn.
  unfold createBufferSource in *. cbn [fst] in Hn. rewrite Hn.
  reflexivity.
Qed.

Lemma arrive_spec_live m s :
  skips (heap s) (nextStartTimeRef s)
        (heap (arrive m s)) (nextStartTimeRef (arrive m s)) \/
  schedules_one (heap s) (nextStartTimeRef s)
        (heap (arrive m s)) (nextStartTimeRef (arrive m s)).
Proof.
  unfold arrive.
  destruct (onmessage_cases (fst (fst m)) (snd (fst m)) (snd m) s)
    as [[effects H]|[[e H]|(frames & _ & H)]]; rewrite H.
  - left. split; reflexivity.
  - left. split; reflexivity.
  - right. exists (fst (fst m)), frames, NoHandler. split; reflexivity.
Qed.

Lemma arrive_live_refs m s :
  mountedRef (arrive m s) = mountedRef s /\
  audioContextRef (arrive m s) = audioContextRef s.
Proof.
  unfold arrive.
  destruct (onmessage_cases (fst (fst m)) (snd (fst m)) (snd m) s)
    as [[effects H]|[[e H]|(frames & _ & H)]]; rewrite H; split; reflexivity.
Qed.

(** The same for the messages of a live session. *)
Lemma deliver_live_follows_plan messages :
  forall s c,
    mountedRef s = true -> audioContextRef s = Some c ->
    new_fragments (heap s) (heap (deliver messages s))
    = plan (nextStartTimeRef s) (omap fragment_of messages).
Proof.
  induction messages as [|m messages IH]; intros s c Hm Hc.
  - unfold new_fragments. cbn. now rewrite drop_all.
  - change (deliver (m :: messages) s) with (deliver messages (arrive m s)).
    destruct (arrive_live_refs m s) as [Hm1 Hc1].
    rewrite Hm in Hm1. rewrite Hc in Hc1.
    specialize (IH (arrive m s) c Hm1 Hc1).
    destruct (run_appends heap nextStartTimeRef arrive arrive_spec_live
                messages (arrive m s)) as (new & Hnew & _).
    fold (deliver messages (arrive m s)) in Hnew.
    unfold new_fragments in *. rewrite Hnew in *.
    rewrite drop_app_length in IH.
    cbn [omap list_omap]. unfold fragment_of at 1.
    destruct m as [[now random] audioData]. cbn [fst snd] in *.
    unfold arrive in *. cbn [fst snd] in *.
    destruct audioData as [[|ch data]|]; cbn [truthy].
    + unfold onmessage in *. rewrite Hm, Hc in *. cbn [truthy] in *.
      rewrite drop_app_length. exact IH.
    + destruct (Codec.decodeAudioData (String ch data)) as [float32|e] eqn:Hd.
      * destruct float32 as [|x float32].
        -- unfold onmessage in *. rewrite Hm, Hc in *. cbn [truthy] in *.
           rewrite Hd in *. cbn [bind length createBuffer] in *.
           rewrite drop_app_length. exact IH.
        -- rewrite (onmessage_decoded now random (String ch data) s c
                      (x :: float32) Hm Hc ltac:(discriminate) Hd
                      ltac:(discriminate)) in *.
           cbn [scheduled heap nextStartTimeRef length] in *.
           rewrite <- app_assoc, drop_app_length.
           cbn [app timeline when frames plan]. now rewrite IH.
      * rewrite (onmessage_undecodable now random (String ch data) s c e
                   Hm Hc ltac:(discriminate) Hd) in *.
        rewrite drop_app_length. exact IH.
    + unfold onmessage in *. rewrite Hm, Hc in *. cbn [truthy] in *.
      rewrite drop_app_length. exact IH.
Qed.

End LiveVoiceModalFacts.

(** ** Claims on the playback scheduler *)

Section SchedulerClaims.
Import JS WebAudio Samples.

(** Three chunks of two samples arriving together at time 2 are laid end
    to end. *)
Example back_to_back :
  timeline (MessageBubble.heap
              (MessageBubble.deliver
                 [(2%Q, two_samples); (2%Q, two_samples); (2%Q, two_samples)]
                 speaking_at_2))
  = [(2, duration 2); (2 + duration 2, duration 2);
     (2 + duration 2 + duration 2, duration 2)]%Q.
Proof. vm_compute. reflexivity. Qed.

(** C1: whatever chunks arrive, at whatever device times and in whatever
    state the component is, the fragments scheduled for them follow one
    another: each starts no earlier than any fragment scheduled before it
    started, and no earlier than that fragment ends (its start plus its
    duration).  This holds for [scheduleChunk] in MessageBubble and for
    [onmessage] in LiveVoiceModal. *)
Theorem fragments_never_overlap :
  (forall arrivals s,
     StronglySorted follows
       (new_fragments (MessageBubble.heap s)
          (MessageBubble.heap (MessageBubble.deliver arrivals s)))) /\
  (forall messages s,
     StronglySorted follows
       (new_fragments (LiveVoiceModal.heap s)
          (LiveVoiceModal.heap (LiveVoiceModal.deliver messages s)))).
Proof.
  split.
  - intros arrivals s.
    exact (run_no_overlap MessageBubble.heap MessageBubble.nextStartTimeRef
             MessageBubble.arrive arrive_spec_bubble arrivals s).
  - intros messages s.
    exact (run_no_overlap LiveVoiceModal.heap LiveVoiceModal.nextStartTimeRef
             LiveVoiceModal.arrive arrive_spec_live messages s).
Qed.

(** C8: a well-formed chunk that arrives one second after the cursor is
    scheduled at its arrival time, the cursor moves to the arrival time
    plus the chunk's duration, the heap gains that one node and no other
    (no filler), and no error is raised or logged.  Both components. *)
Theorem stalled_fragment_starts_on_arrival :
  (forall s c now chunk samples,
     MessageBubble.audioContextRef s = Some c ->
     Codec.decodeAudioData chunk = Ok samples -> samples <> [] ->
     (now == MessageBubble.nextStartTimeRef s + 1)%Q ->
     exists s',
       MessageBubble.scheduleChunk now chunk s
         = Ok (s', Some (length (MessageBubble.heap s))) /\
       MessageBubble.heap s'
         = MessageBubble.heap s
           ++ [mkNode (length samples) (Some now) Scheduled RemoveFromSources] /\
       MessageBubble.nextStartTimeRef s'
         = (now + duration (length samples))%Q /\
       MessageBubble.console s' = MessageBubble.console s /\
       (now - MessageBubble.nextStartTimeRef s == 1)%Q) /\
  (forall s c now random chunk samples,
     LiveVoiceModal.mountedRef s = true ->
     LiveVoiceModal.audioContextRef s = Some c ->
     Codec.decodeAudioData chunk = Ok samples -> samples <> [] ->
     (now == LiveVoiceModal.nextStartTimeRef s + 1)%Q ->
     exists s',
       LiveVoiceModal.onmessage now random (Some chunk) s
         = Ok (s', LiveVoiceModal.activity random) /\
       LiveVoiceModal.heap s'
         = LiveVoiceModal.heap s
           ++ [mkNode (length samples) (Some now) Scheduled NoHandler] /\
       LiveVoiceModal.nextStartTimeRef s'
         = (now + duration (length samples))%Q /\
       LiveVoiceModal.status s' = LiveVoiceModal.status s /\
       (now - LiveVoiceModal.nextStartTimeRef s == 1)%Q).
Proof.
  split.
  - intros s c now chunk samples Hc Hdec Hne Hstall.
    rewrite (scheduleChunk_decodes now chunk s c Hc), Hdec.
    destruct samples as [|x samples]; [congruence|]. cbn [length].
    eexists. split; [reflexivity|].
    unfold MessageBubble.scheduled. cbn.
    rewrite fmax_stall by lra. repeat split. lra.
  - intros s c now random chunk samples Hm Hc Hdec Hne Hstall.
    assert (Hdata : chunk <> EmptyString).
    { intros ->. vm_compute in Hdec. injection Hdec as <-. congruence. }
    rewrite (onmessage_decoded now random chunk s c samples Hm Hc Hdata Hdec Hne).
    eexists. split; [reflexivity|].
    unfold LiveVoiceModal.scheduled. cbn.
    rewrite fmax_stall by lra. repeat split. lra.
Qed.

Lemma stalled_fragment_starts_on_arrival_witness :
  (exists s',
     MessageBubble.scheduleChunk 3 two_samples speaking_at_2 = Ok (s', Some 0%nat) /\
     MessageBubble.heap s' = [mkNode 2 (Some 3%Q) Scheduled RemoveFromSources] /\
     MessageBubble.nextStartTimeRef s' = (3 + duration 2)%Q) /\
  (exists s',
     LiveVoiceModal.onmessage 3 0 (Some two_samples) live_at_2
       = Ok (s', LiveVoiceModal.activity 0) /\
     LiveVoiceModal.heap s' = [mkNode 2 (Some 3%Q) Scheduled NoHandler] /\
     LiveVoiceModal.nextStartTimeRef s' = (3 + duration 2)%Q).
Proof.
  split.
  - destruct (proj1 stalled_fragment_starts_on_arrival
                speaking_at_2 Running 3%Q two_samples
                [Codec.dequantize 32767; Codec.dequantize (-32768)]
                eq_refl eq_refl ltac:(discriminate) ltac:(reflexivity))
      as (s' & H1 & H2 & H3 & _).
    exists s'. repeat split; assumption.
  - destruct (proj2 stalled_fragment_starts_on_arrival
                live_at_2 Running 3%Q 0%Q two_samples
                [Codec.dequantize 32767; Codec.dequantize (-32768)]
                eq_refl eq_refl eq_refl ltac:(discriminate) ltac:(reflexivity))
      as (s' & H1 & H2 & H3 & _).
    exists s'. repeat split; assumption.
Defined.

End SchedulerClaims.

(** ** Claims on stopping, on the cursor and on malformed chunks *)

Section StopClaims.
Import JS WebAudio Samples.



(** C5, as the specification states it, fails: a click while the bubble is
    speaking runs [stopAudio], which brings the cursor from 2 to 0; that is
    neither an increase nor a reset to the clock at the start of a stream. *)
Lemma stop_lowers_cursor :
  MessageBubble.step (MessageBubble.Speak 1 "hi") speaking_at_2
    = Ok (MessageBubble.stopped speaking_at_2) /\
  ~ MessageBubble.cursor_rule (MessageBubble.Speak 1 "hi") speaking_at_2
      (MessageBubble.stopped speaking_at_2).
Proof.
  split; [reflexivity|].
  intros [H|(now & H & _)].
  - vm_compute in H. now apply H.
  - discriminate.
Qed.

Lemma handleSpeak_cursor now cleanText s :
  exists s',
    MessageBubble.handleSpeak now cleanText s = Ok s' /\
    MessageBubble.cursor_rule_with_stop
      (MessageBubble.Speak now cleanText) s s'.
Proof.
  unfold MessageBubble.handleSpeak, MessageBubble.cursor_rule_with_stop.
  cbn [MessageBubble.starts_stream MessageBubble.stops].
  destruct (MessageBubble.isSpeaking s) eqn:Hsp.
  - rewrite stopAudio_stopped. eexists. split; [reflexivity|].
    right; right. split; reflexivity.
  - destruct (MessageBubble.isLoadingAudio s) eqn:Hld.
    + eexists. split; [reflexivity|]. left. lra.
    + destruct cleanText as [|ch rest].
      * eexists. split; [reflexivity|]. left. cbn. lra.
      * eexists. split; [reflexivity|]. right; left.
        exists now. split; reflexivity.
Qed.

(** C5 (amended): every operation of MessageBubble succeeds and leaves the
    cursor where it was or higher, except that a click starting a new
    stream sets it to the device's clock, and an operation that runs
    [stopAudio] (a click while speaking, the unmount cleanup) sets it to
    zero.  No operation of LiveVoiceModal ever lowers its cursor. *)
Theorem cursor_moves_by_rule :
  (forall op s,
     exists s',
       MessageBubble.step op s = Ok s' /\
       MessageBubble.cursor_rule_with_stop op s s') /\
  (forall op s,
     match LiveVoiceModal.step op s with
     | Ok s' =>
         (LiveVoiceModal.nextStartTimeRef s
          <= LiveVoiceModal.nextStartTimeRef s')%Q
     | Throw _ => True
     end).
Proof.
  split.
  - intros [now cleanText|isFirstChunk now base64|activeSource|source now|] s;
      cbn [MessageBubble.step].
    + apply handleSpeak_cursor.
    + unfold MessageBubble.onAudioChunk.
      set (s1 := if isFirstChunk then _ else s).
      assert (Hcur : MessageBubble.nextStartTimeRef s1
                     = MessageBubble.nextStartTimeRef s)
        by (unfold s1; destruct isFirstChunk; reflexivity).
      destruct (scheduleChunk_cases now base64 s1)
        as [H|[H|(frames & _ & H)]]; rewrite H; cbn [bind fst];
        eexists; (split; [reflexivity|]); left.
      * rewrite Hcur. lra.
      * cbn. rewrite Hcur. lra.
      * cbn. rewrite Hcur.
        pose proof (fmax_r now (MessageBubble.nextStartTimeRef s)).
        pose proof (duration_nonneg frames). lra.
    + eexists. split; [reflexivity|]. left.
      destruct activeSource; cbn; lra.
    + eexists. split; [reflexivity|]. left.
      unfold MessageBubble.onended_event.
      destruct (option_map onended _) as [[]|]; cbn; lra.
    + unfold MessageBubble.cleanup. rewrite stopAudio_stopped. cbn [bind].
      destruct (MessageBubble.audioContextRef (MessageBubble.stopped s))
        as [[]|]; cbn [bind fst close];
        eexists; (split; [reflexivity|]); right; right; split; reflexivity.
  - intros [apiKey|stream|connected| |now random audioData| | |] s;
      cbn [LiveVoiceModal.step].
    + unfold LiveVoiceModal.connect_begin. destruct apiKey; cbn; lra.
    + unfold LiveVoiceModal.connect_stream. destruct stream; cbn; lra.
    + unfold LiveVoiceModal.connect_session. destruct connected; cbn; lra.
    + unfold LiveVoiceModal.onopen.
      destruct (LiveVoiceModal.mountedRef s); cbn; lra.
    + destruct (onmessage_cases now random audioData s)
        as [[effects H]|[[e H]|(frames & _ & H)]]; rewrite H; cbn [bind fst].
      * lra.
      * exact I.
      * cbn. pose proof (fmax_r now (LiveVoiceModal.nextStartTimeRef s)).
        pose proof (duration_nonneg frames). lra.
    + unfold LiveVoiceModal.onclose.
      destruct (LiveVoiceModal.mountedRef s); cbn; lra.
    + unfold LiveVoiceModal.onerror.
      destruct (LiveVoiceModal.mountedRef s); cbn; lra.
    + cbn. lra.
Qed.

(** C6: a chunk that is valid base64 for a single byte is malformed.
    [scheduleChunk] drops and logs it, as the claim says; [onmessage] has
    no handler around [decodeAudioData], so the RangeError leaves the
    callback, nothing is logged and the rest of the callback (the timer
    that resets the volume indicator) does not run. *)
Theorem malformed_chunk_escapes_onmessage :
  Codec.malformed one_byte /\
  MessageBubble.scheduleChunk 0 one_byte speaking_at_2
    = Ok (MessageBubble.logged speaking_at_2, None) /\
  LiveVoiceModal.onmessage 0 0 (Some one_byte) connected = Throw RangeError.
Proof.
  split; [|split].
  - right. exists (String (ascii_of_nat 0) ""). split; reflexivity.
  - reflexivity.
  - reflexivity.
Qed.

End StopClaims.

(** ** Loudness *)

Section LoudnessFacts.
Import JS Loudness.

Lemma square_nonneg x : not_NaN x -> nonneg (mul x x).
Proof.
  unfold not_NaN. intros Hx.
  destruct x as [q| | |]; cbn; try congruence; try exact I.
  nra.
Qed.

Lemma add_nonneg a b : nonneg a -> nonneg b -> nonneg (add a b).
Proof.
  destruct a as [p| | |], b as [q| | |]; cbn; try tauto. lra.
Qed.

Lemma sum_squares_nonneg inputData :
  Forall not_NaN inputData -> nonneg (sum_squares inputData).
Proof.
  unfold sum_squares.
  assert (H : forall acc, nonneg acc -> Forall not_NaN inputData ->
                nonneg (fold_left accumulate inputData acc)).
  { induction inputData as [|x l IH]; intros acc Hacc Hl; [exact Hacc|].
    inversion Hl; subst. cbn [fold_left]. apply IH; [|assumption].
    unfold accumulate.
    apply add_nonneg; [assumption|now apply square_nonneg]. }
  intros Hl. apply H; [cbn; lra | exact Hl].
Qed.

Lemma length_positive {A} (l : list A) :
  l <> [] -> (0 < inject_Z (Z.of_nat (length l)))%Q.
Proof.
  intros Hl. destruct l as [|a l]; [congruence|].
  change 0%Q with (inject_Z 0). rewrite <- Zlt_Qlt. cbn [length]. lia.
Qed.

(** The mean of the squares, when it is finite. *)
Lemma div_by_length p n :
  (0 < n)%Q -> div (Num p) (Num n) = Num (p / n).
Proof.
  intros Hn. cbn [div].
  destruct (n ?= 0)%Q eqn:E; try reflexivity.
  apply Qeq_alt in E. lra.
Qed.

Lemma volume_finite inputData p :
  inputData <> [] -> sum_squares inputData = Num p -> (0 <= p)%Q ->
  volume inputData
  = RNum (Rmin
            (sqrt (Q2R (p / inject_Z (Z.of_nat (length inputData)))) * gain) 1).
Proof.
  intros Hne Hsum Hp. unfold volume, rms. rewrite Hsum.
  pose proof (length_positive inputData Hne) as Hn.
  rewrite div_by_length by exact Hn. cbn [Math_sqrt].
  destruct (Qlt_le_dec _ 0) as [Hneg|_]; [|reflexivity].
  exfalso.
  assert (0 <= p / inject_Z (Z.of_nat (length inputData)))%Q; [|lra].
  apply Qle_shift_div_l; [exact Hn|lra].
Qed.

Lemma volume_in_unit_interval inputData :
  inputData <> [] -> Forall not_NaN inputData ->
  in_unit_interval (volume inputData).
Proof.
  intros Hne Hl. pose proof (sum_squares_nonneg inputData Hl) as Hs.
  destruct (sum_squares inputData) as [p| | |] eqn:E; cbn in Hs;
    try contradiction.
  - rewrite (volume_finite inputData p Hne E Hs). cbn. unfold gain.
    pose proof (sqrt_pos (Q2R (p / inject_Z (Z.of_nat (length inputData))))).
    split.
    + apply Rmin_glb; lra.
    + apply Rmin_r.
  - unfold volume, rms. rewrite E.
    pose proof (length_positive inputData Hne) as Hn. cbn [div].
    destruct (Qlt_le_dec _ 0) as [Hneg|_]; [lra|]. cbn. lra.
Qed.

(** The sum of the squares of samples that are all 0, or all 1 or -1. *)
Lemma sum_squares_const (k : Q) inputData :
  Forall (fun x => exists q, x = Num q /\ (q * q == k)%Q) inputData ->
  exists p, sum_squares inputData = Num p /\
            (p == k * inject_Z (Z.of_nat (length inputData)))%Q.
Proof.
  unfold sum_squares.
  assert (H : forall a,
            Forall (fun x => exists q, x = Num q /\ (q * q == k)%Q) inputData ->
            exists p, fold_left accumulate inputData (Num a) = Num p /\
              (p == a + k * inject_Z (Z.of_nat (length inputData)))%Q).
  { induction inputData as [|x l IH]; intros a Hl.
    - exists a. split; [reflexivity|].
      change (inject_Z (Z.of_nat (length (@nil number)))) with 0%Q. lra.
    - inversion Hl as [|? ? (q & -> & Hq) Hl']; subst.
      cbn [fold_left]. unfold accumulate at 2. cbn [add mul].
      destruct (IH (a + q * q)%Q Hl') as (p & Hp & Hpe).
      exists p. split; [exact Hp|].
      rewrite Hpe, Hq. cbn [length].
      rewrite Nat2Z.inj_succ. unfold Z.succ. rewrite inject_Z_plus.
      change (inject_Z 1) with 1%Q. lra. }
  intros Hl. destruct (H 0%Q Hl) as (p & Hp & Hpe).
  exists p. split; [exact Hp|]. rewrite Hpe. lra.
Qed.

Lemma volume_const (k : Q) inputData :
  (0 <= k)%Q -> inputData <> [] ->
  Forall (fun x => exists q, x = Num q /\ (q * q == k)%Q) inputData ->
  volume inputData = RNum (Rmin (sqrt (Q2R k) * gain) 1).
Proof.
  intros Hk Hne Hl.
  destruct (sum_squares_const k inputData Hl) as (p & Hp & Hpe).
  pose proof (length_positive inputData Hne) as Hn.
  rewrite (volume_finite inputData p Hne Hp).
  - do 4 f_equal. apply Qeq_eqR. rewrite Hpe. field. lra.
  - rewrite Hpe. nra.
Qed.

End LoudnessFacts.

(** ** Claims on the capture side *)

Section CaptureClaims.
Import JS Loudness.

(** C9: for every frame the capture node can deliver (not empty, no NaN
    sample) the loudness [min(rms * 5, 1)] is a real number of [0, 1]; a
    frame of zeros gives exactly 0 and a frame at full scale exactly 1. *)
Theorem loudness_in_unit_interval :
  (forall inputData,
     inputData <> [] -> Forall not_NaN inputData ->
     in_unit_interval (volume inputData)) /\
  (forall inputData,
     inputData <> [] -> Forall silent inputData ->
     volume inputData = RNum 0) /\
  (forall inputData,
     inputData <> [] -> Forall full_scale inputData ->
     volume inputData = RNum 1).
Proof.
  split; [exact volume_in_unit_interval|]. split.
  - intros inputData Hne Hl.
    rewrite (volume_const 0 inputData); [|lra|exact Hne|].
    + f_equal. change (Q2R 0) with (0 * / 1)%R.
      replace (0 * / 1)%R with 0%R by lra.
      rewrite sqrt_0. unfold gain. rewrite Rmult_0_l.
      apply Rmin_left. lra.
    + eapply List.Forall_impl; [|exact Hl].
      intros x (q & -> & Hq). exists q. split; [reflexivity|].
      rewrite Hq. lra.
  - intros inputData Hne Hl.
    rewrite (volume_const 1 inputData); [|lra|exact Hne|].
    + f_equal. change (Q2R 1) with (1 * / 1)%R.
      replace (1 * / 1)%R with 1%R by lra.
      rewrite sqrt_1. unfold gain. apply Rmin_right. lra.
    + eapply List.Forall_impl; [|exact Hl].
      intros x (q & -> & [Hq|Hq]); exists q; (split; [reflexivity|]);
        rewrite Hq; lra.
Qed.

Lemma loudness_in_unit_interval_witness :
  in_unit_interval (volume [Num (1 # 3); PosInf; Num (-2)]) /\
  volume [Num 0; Num 0] = RNum 0 /\
  volume [Num 1; Num (-1); Num 1] = RNum 1.
Proof.
  destruct loudness_in_unit_interval as (Hunit & Hzero & Hfull).
  split; [|split].
  - apply Hunit; [discriminate|]. repeat constructor; discriminate.
  - apply Hzero; [discriminate|].
    repeat constructor; exists 0%Q; (split; reflexivity).
  - apply Hfull; [discriminate|].
    repeat constructor;
      [exists 1%Q | exists (-1)%Q | exists 1%Q];
      (split; [reflexivity|]); [left|right|left]; reflexivity.
Defined.

(** Outside that domain the value is NaN: an empty frame divides zero by
    zero, and a NaN sample poisons the sum. *)
Lemma volume_empty : volume [] = RNaN.
Proof. reflexivity. Qed.

Lemma volume_NaN : volume [Num 1; NaN] = RNaN.
Proof. reflexivity. Qed.

(** C4, as the specification states it, fails: a muted frame publishes no
    loudness. *)
Lemma muted_frame_publishes_nothing :
  LiveVoiceModal.onaudioprocess true [Num 1] = [] /\
  ~ LiveVoiceModal.publishes_loudness true [Num 1].
Proof.
  split; [reflexivity|]. intros H. exact H.
Qed.

(** C4 (amended): a frame processed while not muted publishes its loudness
    and is then encoded and sent, tagged with the capture rate; a frame
    processed while muted returns at once, so neither the loudness step
    nor the encode and send step runs. *)
Theorem mute_skips_loudness_and_send (inputData : list number) :
  LiveVoiceModal.onaudioprocess false inputData
    = [LiveVoiceModal.SetVolumeLevel (volume inputData);
       LiveVoiceModal.SendRealtimeInput "audio/pcm;rate=16000"
         (Codec.encodeAudio inputData)] /\
  LiveVoiceModal.publishes_loudness false inputData /\
  LiveVoiceModal.onaudioprocess true inputData = [].
Proof.
  split; [reflexivity|]. split; [|reflexivity].
  left. reflexivity.
Qed.

End CaptureClaims.

(** ** Claims on teardown *)

Section TeardownClaims.
Import WebAudio Samples.

(** C7, as the specification states it, fails: a connected session that
    receives the error signal moves to the error status and keeps every
    resource: the input track is live, the nodes are connected and the
    output context runs. *)
Lemma error_releases_nothing :
  LiveVoiceModal.status connected = LiveVoiceModal.Connected /\
  LiveVoiceModal.status (LiveVoiceModal.onerror connected)
    = LiveVoiceModal.Error /\
  LiveVoiceModal.released (LiveVoiceModal.onerror connected) = false.
Proof. repeat split. Qed.

Lemma tracks_ended_map (tracks : list LiveVoiceModal.track) :
  LiveVoiceModal.tracks_ended
    (map (fun _ : LiveVoiceModal.track => LiveVoiceModal.EndedTrack) tracks)
  = true.
Proof. induction tracks as [|t tracks IH]; [reflexivity|exact IH]. Qed.

(** C7 (amended): the callbacks that take a session out of the connected
    status release nothing; the release is the work of the effect cleanup.
    The cleanup of LiveVoiceModal releases every resource a ref holds
    (tracks stopped, processor and source disconnected, output context
    closed) whatever the status; on a session that never started it has
    nothing to release and only clears the mounted flag; run again, it
    leaves the state as the first run left it.  The cleanup of
    MessageBubble never fails, leaves no pending source and no open
    context, and run again it does nothing: no [close] is issued. *)
Theorem cleanup_releases_resources :
  (forall s,
     let s' := LiveVoiceModal.onerror s in
     LiveVoiceModal.audioContextRef s' = LiveVoiceModal.audioContextRef s /\
     LiveVoiceModal.mediaStreamRef s' = LiveVoiceModal.mediaStreamRef s /\
     LiveVoiceModal.processorRef s' = LiveVoiceModal.processorRef s /\
     LiveVoiceModal.sourceRef s' = LiveVoiceModal.sourceRef s) /\
  (forall s, fst (LiveVoiceModal.onclose s) = s) /\
  (forall s,
     LiveVoiceModal.released (fst (LiveVoiceModal.cleanup s)) = true) /\
  LiveVoiceModal.cleanup LiveVoiceModal.initial
    = (LiveVoiceModal.mkState LiveVoiceModal.Connecting None None None None
         false 0 false None [], []) /\
  (forall s,
     fst (LiveVoiceModal.cleanup (fst (LiveVoiceModal.cleanup s)))
     = fst (LiveVoiceModal.cleanup s)) /\
  (forall s,
     exists s1 promises,
       MessageBubble.cleanup s = Ok (s1, promises) /\
       MessageBubble.sourcesRef s1 = [] /\
       (MessageBubble.audioContextRef s1 = None \/
        MessageBubble.audioContextRef s1 = Some Closed) /\
       MessageBubble.cleanup s1 = Ok (s1, [])).
Proof.
  split; [|split; [|split; [|split; [|split]]]].
  - intros s. unfold LiveVoiceModal.onerror.
    destruct (LiveVoiceModal.mountedRef s); repeat split.
  - intros s. unfold LiveVoiceModal.onclose.
    destruct (LiveVoiceModal.mountedRef s); reflexivity.
  - intros [st ctx stream processor source session cursor mounted input hp].
    unfold LiveVoiceModal.released, LiveVoiceModal.cleanup. cbn.
    destruct stream as [tracks|]; cbn;
      [rewrite tracks_ended_map|];
      destruct processor, source, ctx as [[]|]; reflexivity.
  - reflexivity.
  - intros [st ctx stream processor source session cursor mounted input hp].
    unfold LiveVoiceModal.cleanup. cbn. f_equal.
    + destruct ctx as [[]|]; reflexivity.
    + destruct stream as [tracks|]; cbn; [|reflexivity].
      f_equal. now rewrite map_map.
    + destruct processor; reflexivity.
    + destruct source; reflexivity.
  - intros s. unfold MessageBubble.cleanup.
    rewrite stopAudio_stopped. cbn [bind].
    cbn [MessageBubble.stopped MessageBubble.audioContextRef].
    destruct (MessageBubble.audioContextRef s) as [[]|] eqn:Hc;
      cbn [close]; do 2 eexists;
      (split; [reflexivity|]); (split; [reflexivity|]);
      cbn [MessageBubble.audioContextRef]; rewrite ?Hc;
      (split; [auto|]);
      rewrite stopAudio_stopped; cbn; rewrite ?Hc; reflexivity.
Qed.

(** What the amended claim leaves out.  In LiveVoiceModal nothing guards
    the second [close]: the promise it returns is rejected.  And the input
    context [onopen] creates is in no ref, so no cleanup closes it. *)
Lemma second_close_is_rejected :
  snd (LiveVoiceModal.cleanup (fst (LiveVoiceModal.cleanup connected)))
  = [Rejected InvalidStateError].
Proof. reflexivity. Qed.

Lemma input_context_stays_open :
  LiveVoiceModal.inputCtx (fst (LiveVoiceModal.cleanup connected))
  = Some Running.
Proof. reflexivity. Qed.

End TeardownClaims.

(** ** Further properties of the codec *)

Section CodecExtras.
Import JS Codec.

Lemma clamp_range q :
  (-1 <= fmax (-1) (fmin 1 q) <= 1)%Q.
Proof.
  unfold fmax, fmin.
  destruct (Qlt_le_dec q 1); destruct (Qlt_le_dec (-1) _); lra.
Qed.

Lemma clamp_monotone p q :
  (p <= q)%Q -> (fmax (-1) (fmin 1 p) <= fmax (-1) (fmin 1 q))%Q.
Proof.
  intros Hpq. unfold fmax, fmin.
  destruct (Qlt_le_dec p 1); destruct (Qlt_le_dec q 1);
    repeat match goal with |- context [Qlt_le_dec ?a ?b] =>
             destruct (Qlt_le_dec a b) end; lra.
Qed.

Lemma floor_int16 s :
  (0 <= s <= 1)%Q -> 0 <= Qfloor (s * 32767) <= 32767.
Proof.
  intros [Hlo Hhi].
  pose proof (Qfloor_resp_le 0 (s * 32767)) as H1.
  pose proof (Qfloor_resp_le (s * 32767) 32767) as H2.
  split; [apply H1 | apply H2]; lra.
Qed.

Lemma ceiling_int16 s :
  (-1 <= s < 0)%Q -> -32768 <= Qceiling (s * 32768) <= 0.
Proof.
  intros [Hlo Hhi].
  pose proof (Qceiling_resp_le (-32768) (s * 32768)) as H1.
  pose proof (Qceiling_resp_le (s * 32768) 0) as H2.
  split; [apply H1 | apply H2]; lra.
Qed.

(** What [encodeAudio] stores for a finite sample, in terms of the clamped
    sample: a ceiling below zero, a floor from zero on. *)
Lemma quantize_Num q :
  let s := fmax (-1) (fmin 1 q) in
  ((s < 0)%Q /\ quantize (Num q) = Qceiling (s * 32768)) \/
  ((0 <= s)%Q /\ quantize (Num q) = Qfloor (s * 32767)).
Proof.
  intros s. pose proof (clamp_range q) as Hs. fold s in Hs.
  unfold quantize. cbn [Math_min Math_max]. fold s. cbn [lt].
  destruct (Qlt_le_dec s 0) as [Hneg|Hpos]; cbn [mul ToInt16]; unfold truncate.
  - left. split; [exact Hneg|].
    destruct (Qlt_le_dec (s * 32768) 0); [|lra].
    apply wrap16_id. pose proof (ceiling_int16 s ltac:(lra)).
    unfold is_int16. lia.
  - right. split; [exact Hpos|].
    destruct (Qlt_le_dec (s * 32767) 0); [lra|].
    apply wrap16_id. pose proof (floor_int16 s ltac:(lra)).
    unfold is_int16. lia.
Qed.

(** X1: the transport loses nothing.  Decoding an encoded frame always
    succeeds and returns, sample by sample, the stored 16-bit integer over
    32768. *)
Theorem codec_roundtrip_exact (x : list number) :
  decodeAudioData (encodeAudio x)
  = Ok (map (fun s => dequantize (quantize s)) x).
Proof. exact (decode_encode x). Qed.

(** X2: quantization is monotone: a larger finite sample never gets a
    smaller 16-bit code. *)
Theorem quantize_monotone (p q : Q) :
  (p <= q)%Q -> quantize (Num p) <= quantize (Num q).
Proof.
  intros Hpq. pose proof (clamp_monotone p q Hpq) as Hs.
  pose proof (clamp_range p) as Hp. pose proof (clamp_range q) as Hq.
  destruct (quantize_Num p) as [[Hp0 ->]|[Hp0 ->]];
    destruct (quantize_Num q) as [[Hq0 ->]|[Hq0 ->]].
  - apply Qceiling_resp_le. lra.
  - pose proof (ceiling_int16 (fmax (-1) (fmin 1 p)) ltac:(lra)).
    pose proof (floor_int16 (fmax (-1) (fmin 1 q)) ltac:(lra)). lia.
  - lra.
  - apply Qfloor_resp_le. lra.
Qed.

Lemma quantize_monotone_witness : quantize (Num (-3)) <= quantize (Num (1 # 7)).
Proof. apply quantize_monotone. discriminate. Defined.

(** X3: out-of-range samples saturate, they never wrap around: anything at
    or above 1 (and +Infinity) is stored as 32767, anything at or below -1
    (and -Infinity) as -32768, and NaN as 0. *)
Theorem quantize_saturates :
  (forall q, (1 <= q)%Q -> quantize (Num q) = 32767) /\
  (forall q, (q <= -1)%Q -> quantize (Num q) = -32768) /\
  quantize PosInf = 32767 /\
  quantize NegInf = -32768 /\
  quantize NaN = 0.
Proof.
  split; [|split; [|repeat split]].
  - intros q Hq. pose proof (clamp_range q) as Hr.
    assert (Hs : (fmax (-1) (fmin 1 q) == 1)%Q).
    { unfold fmax, fmin. destruct (Qlt_le_dec q 1);
        destruct (Qlt_le_dec (-1) _); lra. }
    destruct (quantize_Num q) as [[H0 ->]|[H0 ->]]; [lra|].
    rewrite Hs. reflexivity.
  - intros q Hq. pose proof (clamp_range q) as Hr.
    assert (Hs : (fmax (-1) (fmin 1 q) == -1)%Q).
    { unfold fmax, fmin. destruct (Qlt_le_dec q 1);
        destruct (Qlt_le_dec (-1) _); lra. }
    destruct (quantize_Num q) as [[H0 ->]|[H0 ->]]; [|lra].
    rewrite Hs. reflexivity.
Qed.

Lemma quantize_saturates_witness :
  quantize (Num (5 # 2)) = 32767 /\ quantize (Num (-7)) = -32768.
Proof.
  split.
  - apply (proj1 quantize_saturates). discriminate.
  - apply (proj1 (proj2 quantize_saturates)). discriminate.
Defined.

(** X4: decoding and encoding again is not the identity.  A decoded sample
    that came from a positive 16-bit code is stored one code lower; zero
    and the negative codes are kept. *)
Theorem reencode_drifts (v : Z) :
  is_int16 v ->
  quantize (Num (dequantize v)) = if 0 <? v then v - 1 else v.
Proof.
  intros [Hlo Hhi].
  assert (Hd : (dequantize v == inject_Z v * (1 # 32768))%Q) by reflexivity.
  assert (Hlo' : (-32768 <= inject_Z v)%Q)
    by (change (-32768)%Q with (inject_Z (-32768)); now rewrite <- Zle_Qle).
  assert (Hhi' : (inject_Z v <= 32767)%Q)
    by (change 32767%Q with (inject_Z 32767); now rewrite <- Zle_Qle).
  assert (Hs : (fmax (-1) (fmin 1 (dequantize v)) == dequantize v)%Q).
  { unfold fmax, fmin. destruct (Qlt_le_dec (dequantize v) 1);
      destruct (Qlt_le_dec (-1) _); lra. }
  destruct (quantize_Num (dequantize v)) as [[H0 ->]|[H0 ->]]; rewrite Hs in *.
  - assert (Hv : v < 0).
    { apply Z.nle_gt. intros Hge. rewrite Zle_Qle in Hge.
      change (inject_Z 0) with 0%Q in Hge. lra. }
    replace (0 <? v) with false by (symmetry; apply Z.ltb_ge; lia).
    assert (E : (dequantize v * 32768 == inject_Z v)%Q) by (rewrite Hd; lra).
    rewrite E. apply Qceiling_Z.
  - assert (Hv : 0 <= v).
    { rewrite Zle_Qle. change (inject_Z 0) with 0%Q. lra. }
    pose proof (Qfloor_le (dequantize v * 32767)) as Hfl.
    pose proof (Qlt_floor (dequantize v * 32767)) as Hfu.
    rewrite inject_Z_plus in Hfu. change (inject_Z 1) with 1%Q in Hfu.
    set (t := Qfloor (dequantize v * 32767)) in *.
    destruct (0 <? v) eqn:Epos.
    + apply Z.ltb_lt in Epos.
      assert (Hpos : (1 <= inject_Z v)%Q)
        by (change 1%Q with (inject_Z 1); rewrite <- Zle_Qle; lia).
      assert (Hlt : t < v).
      { rewrite Zlt_Qlt. lra. }
      assert (Hgt : v - 1 < t + 1).
      { rewrite Zlt_Qlt. unfold Z.sub.
        rewrite !inject_Z_plus, inject_Z_opp.
        change (inject_Z 1) with 1%Q. lra. }
      lia.
    + apply Z.ltb_ge in Epos. assert (v = 0) by lia. subst v.
      assert (Hle : t <= 0).
      { rewrite Zle_Qle. change (inject_Z 0) with 0%Q in *. lra. }
      assert (Hge : -1 < t).
      { rewrite Zlt_Qlt. change (inject_Z 0) with 0%Q in *.
        change (inject_Z (-1)) with (-1)%Q. lra. }
      lia.
Qed.

Lemma reencode_drifts_witness :
  quantize (Num (dequantize 1200)) = 1199 /\
  quantize (Num (dequantize (-1200))) = -1200.
Proof.
  split.
  - apply (reencode_drifts 1200). unfold is_int16. lia.
  - apply (reencode_drifts (-1200)). unfold is_int16. lia.
Defined.

Lemma encode_length_exact bs :
  Z.of_nat (length (Base64.encode bs))
  = 4 * ((Z.of_nat (length bs) + 2) / 3).
Proof.
  induction bs as [| a | a b | a b c rest IH] using list_ind3;
    try reflexivity.
  change (Base64.encode (a :: b :: c :: rest))
    with (Base64.digit (a / 4) :: Base64.digit (a mod 4 * 16 + b / 16)
            :: Base64.digit (b mod 16 * 4 + c / 64)
            :: Base64.digit (c mod 64) :: Base64.encode rest).
  cbn [length]. rewrite !Nat2Z.inj_succ, IH.
  Z.div_mod_to_equations. lia.
Qed.

Lemma string_length_of_list l :
  String.length (string_of_list_ascii l) = length l.
Proof. induction l as [|c l IH]; cbn; [reflexivity|now rewrite IH]. Qed.

Lemma Uint8Array_length l :
  length (Uint8Array_of_Int16Array l) = (2 * length l)%nat.
Proof.
  unfold Uint8Array_of_Int16Array.
  induction l as [|v l IH]; [reflexivity|].
  cbn [flat_map bytes_of_int16 app length]. rewrite IH. lia.
Qed.

(** X5: the base64 text of a frame of [n] samples has exactly
    [4 * ceil(2n / 3)] characters: two bytes a sample, four characters for
    every three bytes, the last group padded. *)
Theorem encodeAudio_length (x : list number) :
  Z.of_nat (String.length (encodeAudio x))
  = 4 * ((2 * Z.of_nat (length x) + 2) / 3).
Proof.
  unfold encodeAudio, Base64.btoa.
  rewrite string_length_of_list, encode_length_exact.
  rewrite list_ascii_of_string_of_list_ascii.
  rewrite !length_map, Uint8Array_length, length_map.
  rewrite Nat2Z.inj_mul. reflexivity.
Qed.

Lemma atob_throws chunk e :
  Base64.atob chunk = Throw e -> e = InvalidCharacterError.
Proof.
  unfold Base64.atob. destruct (Base64.decode_data _); [discriminate|].
  now intros [= <-].
Qed.

(** X6: [decodeAudioData] has exactly three outcomes.  Text that is not
    base64 throws InvalidCharacterError; base64 for an odd number of bytes
    throws RangeError; base64 for an even number of bytes gives one sample
    for every two bytes. *)
Theorem decodeAudioData_outcomes (chunk : string) :
  (Base64.atob chunk = Throw InvalidCharacterError /\
   decodeAudioData chunk = Throw InvalidCharacterError) \/
  (exists binary,
     Base64.atob chunk = Ok binary /\ byte_length binary mod 2 = 1 /\
     decodeAudioData chunk = Throw RangeError) \/
  (exists binary y,
     Base64.atob chunk = Ok binary /\ decodeAudioData chunk = Ok y /\
     byte_length binary = 2 * Z.of_nat (length y)).
Proof.
  unfold decodeAudioData.
  destruct (Base64.atob chunk) as [binary|e] eqn:Hatob.
  - right. cbn [bind].
    destruct (Int16Array_of_buffer
                (map charCodeAt (list_ascii_of_string binary)))
      as [int16|e] eqn:Hview.
    + right. exists binary, (map dequantize int16). cbn [bind].
      repeat split. apply Int16Array_of_buffer_length in Hview.
      unfold byte_length. rewrite length_map in *. lia.
    + left. exists binary. split; [reflexivity|].
      assert (Hodd : byte_length binary mod 2 = 1).
      { unfold byte_length.
        destruct (Z.eq_dec
                    (Z.of_nat (length (list_ascii_of_string binary)) mod 2) 0)
          as [Heven|Hne].
        - destruct (Int16Array_of_buffer_even
                      (map charCodeAt (list_ascii_of_string binary)))
            as [l Hl]; [now rewrite length_map|congruence].
        - Z.div_mod_to_equations. lia. }
      split; [exact Hodd|].
      rewrite Int16Array_of_buffer_odd in Hview
        by (rewrite length_map; exact Hodd).
      cbn [bind]. congruence.
  - left. apply atob_throws in Hatob. subst e. split; reflexivity.
Qed.

End CodecExtras.

(** ** Further properties of the scheduler *)

Section SchedulerExtras.
Import JS WebAudio Playback Samples.

Lemma fmax_early now cursor : (now <= cursor)%Q -> (fmax now cursor == cursor)%Q.
Proof. unfold fmax. intros H. destruct (Qlt_le_dec now cursor); lra. Qed.

Lemma plan_contiguous arrivals :
  forall cursor,
    List.Forall (fun a : Q * nat => (fst a <= cursor)%Q) arrivals ->
    contiguous cursor (plan cursor arrivals).
Proof.
  induction arrivals as [|[now frames] arrivals IH]; intros cursor Hall.
  - exact I.
  - inversion Hall as [|? ? Hnow Hrest]; subst. cbn [fst] in Hnow.
    cbn [plan contiguous]. split; [now apply fmax_early|].
    unfold end_of. cbn [fst snd]. apply IH.
    eapply List.Forall_impl; [|exact Hrest].
    intros a Ha. cbn beta in *.
    pose proof (fmax_r now cursor). pose proof (duration_nonneg frames). lra.
Qed.

Lemma omap_early {A} (f : A -> option (Q * nat)) (time : A -> Q) cursor l :
  (forall a b, f a = Some b -> fst b = time a) ->
  List.Forall (fun a => (time a <= cursor)%Q) l ->
  List.Forall (fun b : Q * nat => (fst b <= cursor)%Q) (omap f l).
Proof.
  intros Hf. induction 1 as [|a l Ha _ IH]; cbn [omap list_omap].
  - constructor.
  - destruct (f a) as [b|] eqn:E; [|exact IH].
    constructor; [|exact IH]. now rewrite (Hf a b E).
Qed.

Lemma fragment_of_time a b :
  MessageBubble.fragment_of a = Some b -> fst b = fst a.
Proof.
  unfold MessageBubble.fragment_of.
  destruct (Codec.decodeAudioData (snd a)) as [y|]; [|discriminate].
  destruct (length y); [discriminate|]. now intros [= <-].
Qed.

Lemma fragment_of_time_live m b :
  LiveVoiceModal.fragment_of m = Some b -> fst b = fst (fst m).
Proof.
  unfold LiveVoiceModal.fragment_of.
  destruct (LiveVoiceModal.truthy (snd m)) as [data|]; [|discriminate].
  destruct (Codec.decodeAudioData data) as [y|]; [|discriminate].
  destruct (length y); [discriminate|]. now intros [= <-].
Qed.

(** X7: chunks that all arrive before the cursor play back to back: the
    first fragment starts at the cursor and each next one exactly where
    the one before it ends, so a burst leaves no gap.  Both components. *)
Theorem burst_plays_gapless :
  (forall arrivals s c,
     MessageBubble.audioContextRef s = Some c ->
     List.Forall
       (fun a => (fst a <= MessageBubble.nextStartTimeRef s)%Q) arrivals ->
     contiguous (MessageBubble.nextStartTimeRef s)
       (new_fragments (MessageBubble.heap s)
          (MessageBubble.heap (MessageBubble.deliver arrivals s)))) /\
  (forall messages s c,
     LiveVoiceModal.mountedRef s = true ->
     LiveVoiceModal.audioContextRef s = Some c ->
     List.Forall
       (fun m => (fst (fst m) <= LiveVoiceModal.nextStartTimeRef s)%Q)
       messages ->
     contiguous (LiveVoiceModal.nextStartTimeRef s)
       (new_fragments (LiveVoiceModal.heap s)
          (LiveVoiceModal.heap (LiveVoiceModal.deliver messages s)))).
Proof.
  split.
  - intros arrivals s c Hc Hall.
    rewrite (deliver_follows_plan arrivals s c Hc).
    apply plan_contiguous.
    apply (omap_early MessageBubble.fragment_of fst); [|exact Hall].
    exact fragment_of_time.
  - intros messages s c Hm Hc Hall.
    rewrite (deliver_live_follows_plan messages s c Hm Hc).
    apply plan_contiguous.
    apply (omap_early LiveVoiceModal.fragment_of (fun m => fst (fst m)));
      [|exact Hall].
    exact fragment_of_time_live.
Qed.

Lemma burst_plays_gapless_witness :
  contiguous 2
    (new_fragments (MessageBubble.heap speaking_at_2)
       (MessageBubble.heap
          (MessageBubble.deliver
             [(1%Q, two_samples); (0%Q, one_byte); (2%Q, two_samples)]
             speaking_at_2))) /\
  contiguous 2
    (new_fragments (LiveVoiceModal.heap live_at_2)
       (LiveVoiceModal.heap
          (LiveVoiceModal.deliver
             [(1%Q, 0%Q, Some two_samples); (2%Q, 0%Q, Some two_samples)]
             live_at_2))).
Proof.
  split.
  - apply (proj1 burst_plays_gapless _ speaking_at_2 Running eq_refl).
    repeat constructor; discriminate.
  - apply (proj2 burst_plays_gapless _ live_at_2 Running eq_refl eq_refl).
    repeat constructor; discriminate.
Defined.

(** X8: [scheduleChunk] never throws and is all or nothing.  It never
    touches the speaking flag, the loading flag or the context.  When it
    returns no source, the heap, the pending list and the cursor are as
    before; when it returns one, that source is a new node, appended to
    the heap and to the pending list. *)
Theorem scheduleChunk_all_or_nothing (now : Q) (base64 : string)
    (s : MessageBubble.state) :
  exists s' r,
    MessageBubble.scheduleChunk now base64 s = Ok (s', r) /\
    MessageBubble.isSpeaking s' = MessageBubble.isSpeaking s /\
    MessageBubble.isLoadingAudio s' = MessageBubble.isLoadingAudio s /\
    MessageBubble.audioContextRef s' = MessageBubble.audioContextRef s /\
    match r with
    | None =>
        MessageBubble.heap s' = MessageBubble.heap s /\
        MessageBubble.sourcesRef s' = MessageBubble.sourcesRef s /\
        MessageBubble.nextStartTimeRef s' = MessageBubble.nextStartTimeRef s
    | Some source =>
        source = length (MessageBubble.heap s) /\
        length (MessageBubble.heap s')
          = Datatypes.S (length (MessageBubble.heap s)) /\
        MessageBubble.sourcesRef s' = MessageBubble.sourcesRef s ++ [source] /\
        MessageBubble.console s' = MessageBubble.console s
    end.
Proof.
  destruct (scheduleChunk_cases now base64 s) as [H|[H|(frames & _ & H)]];
    rewrite H; do 2 eexists; (split; [reflexivity|]); cbn;
    repeat split.
  rewrite length_app. cbn. lia.
Qed.

Lemma started_halt n : started n -> started (halt_node n).
Proof. unfold started, halt_node. destruct n as [f w [] h]; cbn; congruence. Qed.

Lemma started_alter (f : node -> node) (i : nat) heap :
  (forall n, started n -> started (f n)) ->
  Forall started heap -> Forall started (alter f i heap).
Proof. intros Hf Hh. apply Forall_alter; [exact Hh|]. intros x _. apply Hf. Qed.

Lemma started_halt_all sources heap :
  Forall started heap -> Forall started (halt_all sources heap).
Proof.
  revert heap. induction sources as [|source sources IH]; intros heap Hh.
  - exact Hh.
  - change (halt_all (source :: sources) heap)
      with (halt_all sources (alter halt_node source heap)).
    apply IH, started_alter; [exact started_halt|exact Hh].
Qed.

(** On a heap of started nodes [stop] needs no [catch]. *)
Lemma stop_started source heap :
  Forall started heap -> stop source heap = Ok (alter halt_node source heap).
Proof.
  intros Hh. pose proof (stop_caught source heap) as Hc.
  unfold stop in *. destruct (heap !! source) as [n|] eqn:E; [|exact Hc].
  pose proof (Forall_lookup_1 _ _ _ _ Hh E) as Hn. unfold started in Hn.
  destruct (playback_state n); [congruence|exact Hc..].
Qed.

Lemma forEach_stop_started sources heap :
  Forall started heap ->
  forEach sources stop heap = Ok (halt_all sources heap).
Proof.
  revert heap. induction sources as [|source sources IH]; intros heap Hh.
  - reflexivity.
  - cbn [forEach]. rewrite stop_started by exact Hh. cbn [bind].
    rewrite IH by (apply started_alter; [exact started_halt|exact Hh]).
    reflexivity.
Qed.

Lemma remove_first_subset source l x :
  In x (MessageBubble.remove_first source l) -> In x l.
Proof.
  induction l as [|y l IH]; cbn; [tauto|].
  destruct (Nat.eqb y source); cbn; tauto.
Qed.

Lemma remove_first_NoDup source l :
  List.NoDup l -> List.NoDup (MessageBubble.remove_first source l).
Proof.
  induction 1 as [|y l Hy Hl IH]; cbn; [constructor|].
  destruct (Nat.eqb y source); [exact Hl|].
  constructor; [|exact IH]. intros Hin. apply Hy.
  now apply remove_first_subset in Hin.
Qed.

Lemma remove_first_gone source l :
  List.NoDup l -> ~ In source (MessageBubble.remove_first source l).
Proof.
  induction 1 as [|y l Hy Hl IH]; cbn; [tauto|].
  destruct (Nat.eqb y source) eqn:E.
  - apply Nat.eqb_eq in E. now subst.
  - apply Nat.eqb_neq in E. cbn. tauto.
Qed.

Lemma remove_first_other source l x :
  x <> source -> In x l -> In x (MessageBubble.remove_first source l).
Proof.
  intros Hx. induction l as [|y l IH]; cbn; [tauto|].
  destruct (Nat.eqb y source) eqn:E.
  - apply Nat.eqb_eq in E. subst. intros [->|H]; [congruence|exact H].
  - cbn. tauto.
Qed.

Lemma pending_ok_remove source sources heap heap' :
  length heap' = length heap -> Forall started heap' ->
  pending_ok sources heap ->
  pending_ok (MessageBubble.remove_first source sources) heap'.
Proof.
  intros Hlen Hst (_ & Hb & Hnd). split; [exact Hst|]. split.
  - apply List.Forall_forall. intros x Hx. rewrite Hlen.
    apply remove_first_subset in Hx.
    exact (proj1 (List.Forall_forall _ _) Hb x Hx).
  - now apply remove_first_NoDup.
Qed.

Lemma pending_ok_same sources heap heap' :
  length heap' = length heap -> Forall started heap' ->
  pending_ok sources heap -> pending_ok sources heap'.
Proof.
  intros Hlen Hst (_ & Hb & Hnd). split; [exact Hst|]. split; [|exact Hnd].
  now rewrite Hlen.
Qed.

Lemma pending_ok_push sources heap n :
  started n -> pending_ok sources heap ->
  pending_ok (sources ++ [length heap]) (heap ++ [n]).
Proof.
  intros Hn (Hst & Hb & Hnd). split; [|split].
  - apply Forall_app. split; [exact Hst|]. now constructor.
  - apply List.Forall_app. split.
    + eapply List.Forall_impl; [|exact Hb].
      intros x Hx. cbn beta in *. rewrite length_app. cbn. lia.
    + constructor; [|constructor]. rewrite length_app. cbn. lia.
  - apply NoDup_ListNoDup, NoDup_app. split; [|split].
    + now apply NoDup_ListNoDup.
    + intros x Hx Hin. apply list_elem_of_In in Hx.
      apply list_elem_of_In in Hin. destruct Hin as [<-|[]].
      pose proof (proj1 (List.Forall_forall _ _) Hb _ Hx) as Hlt.
      cbn beta in Hlt. lia.
    + apply NoDup_ListNoDup. constructor; [tauto|constructor].
Qed.

Lemma pending_ok_nil heap : Forall started heap -> pending_ok [] heap.
Proof. intros H. split; [exact H|]. split; constructor. Qed.

Lemma step_preserves op s :
  pending_ok (MessageBubble.sourcesRef s) (MessageBubble.heap s) ->
  exists s',
    MessageBubble.step op s = Ok s' /\
    pending_ok (MessageBubble.sourcesRef s') (MessageBubble.heap s').
Proof.
  intros Hinv. pose proof Hinv as (Hst & _).
  destruct op as [now cleanText|isFirstChunk now base64|activeSource
                 |source now|]; cbn [MessageBubble.step].
  - unfold MessageBubble.handleSpeak.
    destruct (MessageBubble.isSpeaking s).
    + rewrite stopAudio_stopped. eexists. split; [reflexivity|].
      cbn. now apply pending_ok_nil, started_halt_all.
    + destruct (MessageBubble.isLoadingAudio s); [eauto|].
      destruct cleanText; eexists; (split; [reflexivity|]); exact Hinv.
  - unfold MessageBubble.onAudioChunk.
    set (s1 := if isFirstChunk then _ else s).
    assert (Hinv1 : pending_ok (MessageBubble.sourcesRef s1)
                      (MessageBubble.heap s1))
      by (unfold s1; destruct isFirstChunk; exact Hinv).
    destruct (scheduleChunk_cases now base64 s1)
      as [H|[H|(frames & _ & H)]]; rewrite H; cbn [bind fst];
      eexists; (split; [reflexivity|]); try exact Hinv1.
    cbn. apply pending_ok_push; [|exact Hinv1]. unfold started. cbn.
    discriminate.
  - eexists. split; [reflexivity|].
    destruct activeSource as [source|]; cbn; [|exact Hinv].
    apply (pending_ok_same _ (MessageBubble.heap s)); [| |exact Hinv].
    + apply length_alter.
    + apply started_alter; [|exact Hst]. intros n Hn. exact Hn.
  - eexists. split; [reflexivity|].
    assert (Hfin : Forall started (finish source (MessageBubble.heap s))).
    { apply started_alter; [|exact Hst]. intros n Hn. unfold started in *.
      destruct n as [f w [] h]; cbn in *; congruence. }
    assert (Hlen : length (finish source (MessageBubble.heap s))
                   = length (MessageBubble.heap s)) by apply length_alter.
    unfold MessageBubble.onended_event.
    destruct (option_map onended _) as [[]|]; cbn.
    + now apply (pending_ok_same _ (MessageBubble.heap s)).
    + now apply (pending_ok_remove _ _ (MessageBubble.heap s)).
    + now apply (pending_ok_same _ (MessageBubble.heap s)).
    + now apply (pending_ok_same _ (MessageBubble.heap s)).
  - unfold MessageBubble.cleanup. rewrite stopAudio_stopped. cbn [bind].
    destruct (MessageBubble.audioContextRef (MessageBubble.stopped s))
      as [[]|]; cbn [bind fst close];
      eexists; (split; [reflexivity|]); cbn;
      now apply pending_ok_nil, started_halt_all.
Qed.

Lemma run_preserves ops :
  forall s,
    pending_ok (MessageBubble.sourcesRef s) (MessageBubble.heap s) ->
    exists s',
      run ops s = Ok s' /\
      pending_ok (MessageBubble.sourcesRef s') (MessageBubble.heap s').
Proof.
  induction ops as [|op ops IH]; intros s Hinv; [now exists s|].
  destruct (step_preserves op s Hinv) as (s1 & Hstep & Hinv1).
  destruct (IH s1 Hinv1) as (s' & Hrun & Hinv').
  exists s'. cbn [run]. rewrite Hstep. cbn [bind]. auto.
Qed.

(** X9: whatever operations have run since the bubble was mounted, they
    all succeeded, and the pending list names nodes that exist, each once,
    and that have all been started.  So every [source.stop()] of
    [stopAudio] succeeds: the [catch] around it never runs. *)
Theorem pending_sources_are_started (ops : list MessageBubble.operation) :
  exists s,
    run ops MessageBubble.initial = Ok s /\
    pending_ok (MessageBubble.sourcesRef s) (MessageBubble.heap s) /\
    forEach (MessageBubble.sourcesRef s) stop (MessageBubble.heap s)
    = Ok (halt_all (MessageBubble.sourcesRef s) (MessageBubble.heap s)).
Proof.
  destruct (run_preserves ops MessageBubble.initial) as (s & Hrun & Hinv).
  - apply pending_ok_nil. constructor.
  - exists s. split; [exact Hrun|]. split; [exact Hinv|].
    apply forEach_stop_started. exact (proj1 Hinv).
Qed.

(** X10: the end of a source whose handler is the one [scheduleChunk]
    installed removes that source, and only it, from the pending list.
    Once [handleSpeak] has replaced the handler of the last source of a
    stream, the end of that source leaves the pending list as it is, the
    source still in it; it clears the speaking flag if there is a context
    and the clock has come within half a second of the cursor, and leaves
    the flag alone if the clock is further back. *)
Theorem last_source_stays_pending (s : MessageBubble.state)
    (source : nat) (now : Q) (n : node) :
  List.NoDup (MessageBubble.sourcesRef s) ->
  In source (MessageBubble.sourcesRef s) ->
  MessageBubble.heap s !! source = Some n ->
  (onended n = RemoveFromSources ->
   let s' := MessageBubble.onended_event source now s in
   ~ In source (MessageBubble.sourcesRef s') /\
   forall other, other <> source ->
     (In other (MessageBubble.sourcesRef s')
      <-> In other (MessageBubble.sourcesRef s))) /\
  (let s' := MessageBubble.onended_event source now
               (MessageBubble.onStreamDone (Some source) s) in
   MessageBubble.sourcesRef s' = MessageBubble.sourcesRef s /\
   In source (MessageBubble.sourcesRef s') /\
   (MessageBubble.audioContextRef s <> None ->
    (MessageBubble.nextStartTimeRef s - (1 # 2) <= now)%Q ->
    MessageBubble.isSpeaking s' = false) /\
   ((now < MessageBubble.nextStartTimeRef s - (1 # 2))%Q ->
    MessageBubble.isSpeaking s' = MessageBubble.isSpeaking s)).
Proof.
  intros Hnd Hin Hn. split.
  - intros Hh s'. unfold s', MessageBubble.onended_event.
    rewrite Hn. cbn [option_map]. rewrite Hh. cbn. split.
    + now apply remove_first_gone.
    + intros other Hne. split;
        [apply remove_first_subset | now apply remove_first_other].
  - intros s'. unfold s', MessageBubble.onended_event.
    cbn [MessageBubble.onStreamDone MessageBubble.heap
         MessageBubble.sourcesRef MessageBubble.audioContextRef
         MessageBubble.nextStartTimeRef MessageBubble.isSpeaking].
    unfold set_onended. rewrite list_lookup_alter_eq, Hn.
    cbn [fmap option_fmap option_map with_onended onended].
    cbn [MessageBubble.sourcesRef MessageBubble.isSpeaking].
    split; [reflexivity|]. split; [exact Hin|]. split.
    + intros Hc Hnow.
      destruct (MessageBubble.audioContextRef s); [|congruence].
      destruct (Qlt_le_dec now _); [lra|reflexivity].
    + intros Hnow. destruct (MessageBubble.audioContextRef s);
        [|reflexivity].
      destruct (Qlt_le_dec now _); [reflexivity|lra].
Qed.

Lemma last_source_stays_pending_witness :
  let s := MessageBubble.deliver [(2%Q, two_samples)] speaking_at_2 in
  let s' := MessageBubble.onended_event 0 3
              (MessageBubble.onStreamDone (Some 0%nat) s) in
  ~ In 0%nat (MessageBubble.sourcesRef (MessageBubble.onended_event 0 3 s)) /\
  MessageBubble.sourcesRef s' = [0%nat] /\
  MessageBubble.isSpeaking s' = false.
Proof.
  intros s s'.
  destruct (last_source_stays_pending s 0%nat 3%Q
              (mkNode 2 (Some 2%Q) Scheduled RemoveFromSources))
    as [Hplain (Hkept & _ & Hflag & _)].
  - repeat constructor. intros [].
  - now left.
  - reflexivity.
  - split; [exact (proj1 (Hplain eq_refl))|].
    split; [exact Hkept|].
    apply Hflag; [discriminate|]. vm_compute. discriminate.
Defined.

End SchedulerExtras.

(** ** Further properties of the live session *)

Section SessionExtras.
Import WebAudio LiveVoiceModal Playback Session Samples.


Lemma step_keeps_stream op s :
  keeps_stream op = true ->
  match step op s with
  | Ok s' => mediaStreamRef s' = mediaStreamRef s
  | Throw _ => True
  end.
Proof.
  destruct op as [apiKey|stream|connected| |now random audioData| | |];
    cbn [keeps_stream step]; intros Hk; try discriminate.
  - unfold connect_begin. destruct apiKey; reflexivity.
  - unfold connect_session. destruct connected; reflexivity.
  - unfold onopen. destruct (mountedRef s); reflexivity.
  - destruct (onmessage_cases now random audioData s)
      as [[effects H]|[[e H]|(frames & _ & H)]]; rewrite H; cbn [bind fst];
      try exact I; reflexivity.
  - unfold onclose. destruct (mountedRef s); reflexivity.
  - unfold onerror. destruct (mountedRef s); reflexivity.
Qed.

Lemma run_live_keeps_stream ops :
  forall s,
    forallb keeps_stream ops = true ->
    mediaStreamRef (run_live ops s) = mediaStreamRef s.
Proof.
  induction ops as [|op ops IH]; intros s Hk; [reflexivity|].
  cbn [forallb] in Hk. apply andb_true_iff in Hk. destruct Hk as [Hop Hk].
  cbn [run_live]. pose proof (step_keeps_stream op s Hop) as Hs.
  destruct (step op s) as [s'|e]; [|now apply IH].
  rewrite IH by exact Hk. exact Hs.
Qed.

Lemma tracks_ended_live tracks : In Live tracks -> tracks_ended tracks = false.
Proof.
  induction tracks as [|t tracks IH]; intros Hin; [destruct Hin|].
  cbn [tracks_ended forallb]. destruct t; [reflexivity|].
  destruct Hin as [Heq|Hin]; [discriminate|]. exact (IH Hin).
Qed.

(** X12: nothing guards the assignment that follows [getUserMedia].  If
    the stream is granted after the cleanup has run, its tracks are stored
    and stay live whatever session callbacks and connection steps follow;
    only another cleanup, or another stream taking its place, changes
    that. *)
Theorem late_stream_is_never_stopped (s : state) (tracks : list track)
    (ops : list operation) :
  In Live tracks ->
  forallb keeps_stream ops = true ->
  let s' := run_live ops (connect_stream (Some tracks) (fst (cleanup s))) in
  mediaStreamRef s' = Some tracks /\ released s' = false.
Proof.
  intros Hlive Hops s'.
  assert (Hstream : mediaStreamRef s' = Some tracks)
    by (unfold s'; now rewrite run_live_keeps_stream).
  split; [exact Hstream|].
  unfold released. rewrite Hstream, (tracks_ended_live tracks Hlive).
  reflexivity.
Qed.

Lemma late_stream_is_never_stopped_witness :
  released
    (run_live [Open; Message 1 0 (Some two_samples); ConnectSession true;
               ErrorSignal; CloseSignal]
       (connect_stream (Some [Live])
          (fst (cleanup (connect_begin true initial))))) = false.
Proof.
  apply (late_stream_is_never_stopped
           (connect_begin true initial) [Live]
           [Open; Message 1 0 (Some two_samples); ConnectSession true;
            ErrorSignal; CloseSignal]).
  - now left.
  - reflexivity.
Defined.




End SessionExtras.

(** ** A whole run of [handleSpeak] *)

Section SpeechFacts.
Import JS WebAudio MessageBubble Speech Samples.

Lemma timeline_drop_alter (f : node -> node) :
  (forall n, when (f n) = when n /\ frames (f n) = frames n) ->
  forall l (k i : nat),
    timeline (drop k (alter f i l)) = timeline (drop k l).
Proof.
  intros Hf. induction l as [|n l IH]; intros k i; [now destruct k, i|].
  destruct k as [|k], i as [|i]; cbn [alter list_alter drop timeline].
  - destruct (Hf n) as [-> ->]. reflexivity.
  - specialize (IH 0%nat i). rewrite !drop_0 in IH.
    change (list_alter f i l) with (alter f i l). now rewrite IH.
  - reflexivity.
  - apply IH.
Qed.

Lemma last_scheduled_any before stream :
  last_scheduled before stream = true ->
  before = true \/ any_audio stream = true.
Proof.
  revert before. induction stream as [|c stream IH]; intros before H.
  - now left.
  - cbn [last_scheduled fold_left any_audio existsb] in *.
    destruct (LiveVoiceModal.truthy (snd c)); [now right|].
    apply IH in H. destruct H; [now left|now right].
Qed.

Lemma onChunk_step now data s l c :
  audioContextRef s = Some c ->
  onChunk now data (s, l)
  = match fragment_of (now, Some data) with
    | Some (_, n) =>
        ((scheduled now n (loaded (isFirstChunk l) s),
          mkLocals false (Some (length (heap s)))), None)
    | None =>
        ((logged (loaded (isFirstChunk l) s), mkLocals false None), None)
    end \/ data = EmptyString.
Proof.
  intros Hc. destruct data as [|ch data]; [now right|left].
  unfold onChunk, onAudioChunk, fragment_of. cbn [fst snd LiveVoiceModal.truthy].
  change (if isFirstChunk l then _ else s) with (loaded (isFirstChunk l) s).
  assert (Hc1 : audioContextRef (loaded (isFirstChunk l) s) = Some c)
    by (unfold loaded; destruct (isFirstChunk l); exact Hc).
  rewrite (scheduleChunk_decodes now _ _ c Hc1).
  destruct (Codec.decodeAudioData (String ch data)) as [float32|e];
    [|reflexivity].
  destruct (length float32); [reflexivity|].
  unfold loaded. destruct (isFirstChunk l); reflexivity.
Qed.

Lemma truthy_nonempty audioData data :
  LiveVoiceModal.truthy audioData = Some data ->
  audioData = Some data /\ data <> EmptyString.
Proof.
  destruct audioData as [[|ch d]|]; cbn; try discriminate.
  intros [= <-]. split; [reflexivity|discriminate].
Qed.

(** What the loop of [streamSpeech] does with the callback of
    [handleSpeak], when there is a context: it never stops on an
    exception, appends the fragments of the recurrence, and leaves in the
    locals the source of the last chunk that carried audio. *)
Lemma for_await_onChunk stream :
  forall s l c,
    audioContextRef s = Some c ->
    exists s' l' new,
      GeminiService.for_await stream onChunk (s, l) = ((s', l'), None) /\
      audioContextRef s' = Some c /\
      isSpeaking s' = isSpeaking s /\
      heap s' = heap s ++ new /\
      timeline new = plan (nextStartTimeRef s) (omap fragment_of stream) /\
      length (sourcesRef s')
        = (length (sourcesRef s) + length (omap fragment_of stream))%nat /\
      is_some (activeSource l')
        = last_scheduled (is_some (activeSource l)) stream /\
      isLoadingAudio s'
        = (if isFirstChunk l && any_audio stream then false
           else isLoadingAudio s).
Proof.
  induction stream as [|[now audioData] stream IH]; intros s l c Hc.
  - exists s, l, []. cbn. rewrite app_nil_r, andb_false_r, Nat.add_0_r.
    repeat split; assumption.
  - cbn [GeminiService.for_await omap list_omap any_audio existsb
         last_scheduled fold_left fst snd].
    destruct (LiveVoiceModal.truthy audioData) as [data|] eqn:Ht.
    + destruct (truthy_nonempty _ _ Ht) as [-> Hne].
      destruct (onChunk_step now data s l c Hc) as [Hstep|Hempty];
        [|congruence].
      rewrite Hstep. clear Hstep.
      assert (Hflat : forall first,
                audioContextRef (loaded first s) = Some c /\
                isSpeaking (loaded first s) = isSpeaking s /\
                heap (loaded first s) = heap s /\
                nextStartTimeRef (loaded first s) = nextStartTimeRef s /\
                sourcesRef (loaded first s) = sourcesRef s /\
                isLoadingAudio (loaded first s)
                = if first then false else isLoadingAudio s)
        by (intros []; repeat split; exact Hc).
      destruct (Hflat (isFirstChunk l)) as (Hc1 & Hsp & Hh & Hcur & Hsrc & Hld).
      set (s1 := loaded (isFirstChunk l) s) in *.
      destruct (fragment_of (now, Some data)) as [[t n]|] eqn:Hf.
      * assert (Ht' : t = now).
        { unfold fragment_of in Hf. cbn [fst snd] in Hf. rewrite Ht in Hf.
          destruct (Codec.decodeAudioData data) as [y|]; [|discriminate].
          destruct (length y); [discriminate|]. now injection Hf. }
        subst t.
        destruct (IH (scheduled now n s1)
                    (mkLocals false (Some (length (heap s)))) c Hc1)
          as (s' & l' & new & Hrun & Hc' & Hsp' & Hh' & Htl & Hlen
              & Hact & Hld').
        exists s', l',
          (mkNode n (Some (fmax now (nextStartTimeRef s)))
             Scheduled RemoveFromSources :: new).
        rewrite Hrun.
        cbn [scheduled heap nextStartTimeRef isSpeaking isLoadingAudio
             sourcesRef activeSource is_some isFirstChunk andb] in *.
        rewrite Hh, Hcur, Hsp, Hsrc, Hld in *. rewrite andb_true_r.
        rewrite <- app_assoc in Hh'. rewrite length_app in Hlen.
        cbn [length plan timeline when frames app] in *.
        rewrite Htl.
        repeat split; try assumption. lia.
      * destruct (IH (logged s1) (mkLocals false None) c Hc1)
          as (s' & l' & new & Hrun & Hc' & Hsp' & Hh' & Htl & Hlen
              & Hact & Hld').
        exists s', l', new. rewrite Hrun.
        cbn [logged heap nextStartTimeRef isSpeaking isLoadingAudio
             sourcesRef activeSource is_some isFirstChunk andb] in *.
        rewrite Hh, Hcur, Hsp, Hsrc, Hld in *. rewrite andb_true_r.
        repeat split; assumption.
    + assert (Hf : fragment_of (now, audioData) = None)
        by (unfold fragment_of; cbn [snd]; now rewrite Ht).
      rewrite Hf.
      destruct (IH s l c Hc)
        as (s' & l' & new & Hrun & Hc' & Hsp' & Hh' & Htl & Hlen
            & Hact & Hld').
      exists s', l', new. rewrite Hrun. cbn [orb].
      repeat split; assumption.
Qed.

(** The state a click leaves on an idle bubble with some text to read. *)
Lemma handleSpeak_idle now ch rest s :
  idle s ->
  handleSpeak now (String ch rest) s
  = Ok (mkState true true
          (Some (resume (match audioContextRef s with
                         | Some c => c
                         | None => Running
                         end)))
          (sourcesRef s) now (heap s) (console s)) /\
  starts_stream (Speak now (String ch rest)) s = Some now.
Proof.
  intros [Hsp Hld]. unfold handleSpeak, starts_stream.
  rewrite Hsp, Hld. cbn. destruct (audioContextRef s); split; reflexivity.
Qed.

(** A whole run on an idle bubble with text, put together. *)
Lemma speak_idle now ch rest stream failure s :
  idle s ->
  exists s',
    speak now (String ch rest) stream failure s = Ok s' /\
    isLoadingAudio s' = false /\
    isSpeaking s' = last_scheduled false stream /\
    length (sourcesRef s')
      = (length (sourcesRef s) + length (omap fragment_of stream))%nat /\
    new_fragments (heap s) (heap s') = plan now (omap fragment_of stream).
Proof.
  intros Hidle.
  destruct (handleSpeak_idle now ch rest s Hidle) as [Hbegin Hstarts].
  unfold speak. rewrite Hbegin, Hstarts. cbn [bind].
  set (s1 := mkState true true _ _ _ _ _).
  destruct (for_await_onChunk stream s1 (mkLocals true None)
              (resume (match audioContextRef s with
                       | Some c => c
                       | None => Running
                       end)) eq_refl)
    as (s2 & l2 & new & Hrun & Hc & Hsp & Hh & Htl & Hlen & Hact & Hld).
  unfold GeminiService.streamSpeech. rewrite Hrun.
  cbn [s1 isSpeaking heap nextStartTimeRef sourcesRef isLoadingAudio
       activeSource is_some isFirstChunk andb] in *.
  assert (Hfinal : forall s3,
            isSpeaking s3 = true -> heap s3 = heap s ++ new ->
            isLoadingAudio s3 = (if any_audio stream then false else true) ->
            length (sourcesRef s3)
              = (length (sourcesRef s)
                 + length (omap fragment_of stream))%nat ->
            let s' := onStreamDone (activeSource l2) s3 in
            isLoadingAudio s' = false /\
            isSpeaking s' = last_scheduled false stream /\
            length (sourcesRef s')
              = (length (sourcesRef s)
                 + length (omap fragment_of stream))%nat /\
            new_fragments (heap s) (heap s')
              = plan now (omap fragment_of stream)).
  { intros s3 Hsp3 Hh3 Hld3 Hlen3 s'. unfold s', new_fragments.
    destruct (activeSource l2) as [source|];
      cbn [onStreamDone is_some isLoadingAudio isSpeaking sourcesRef heap]
      in *.
    - pose proof Hact as Hkeep. symmetry in Hact.
      apply last_scheduled_any in Hact.
      destruct Hact as [Hact|Hany]; [discriminate|].
      rewrite Hany in Hld3.
      split; [exact Hld3|]. split; [rewrite Hsp3; exact Hkeep|].
      split; [exact Hlen3|].
      unfold set_onended.
      rewrite timeline_drop_alter by (intros n; split; reflexivity).
      now rewrite Hh3, drop_app_length.
    - split; [reflexivity|]. split; [exact Hact|]. split; [exact Hlen3|].
      now rewrite Hh3, drop_app_length. }
  destruct failure; eexists; (split; [reflexivity|]);
    apply Hfinal; cbn; assumption.
Qed.

(** X14: a run of [handleSpeak] on an idle bubble always ends with the
    loading flag down, whether the text was empty, the stream carried no
    audio, failed, or delivered chunks. *)
Theorem speak_clears_loading (now : Q) (cleanText : string)
    (stream : list (Q * option string)) (failure : bool) (s : state) :
  idle s ->
  exists s',
    speak now cleanText stream failure s = Ok s' /\
    isLoadingAudio s' = false.
Proof.
  intros Hidle. destruct cleanText as [|ch rest].
  - destruct Hidle as [Hsp Hld]. unfold speak, handleSpeak, starts_stream.
    rewrite Hsp, Hld. cbn. eauto.
  - destruct (speak_idle now ch rest stream failure s Hidle)
      as (s' & Hrun & Hld & _).
    eauto.
Qed.

Lemma speak_clears_loading_witness :
  exists s',
    speak 0 "hello" [(1%Q, None); (2%Q, Some two_samples)] true initial
      = Ok s' /\
    isLoadingAudio s' = false.
Proof.
  apply (speak_clears_loading 0 "hello"
           [(1%Q, None); (2%Q, Some two_samples)] true initial).
  split; reflexivity.
Defined.





End SpeechFacts.

(** ** The streaming loop of [generateStreamResponse] *)

Section ChatFacts.
Import Chat.
Local Open Scope string_scope.

Lemma append_nil_r s : s ++ "" = s.
Proof. induction s as [|c s IH]; cbn; [reflexivity|now rewrite IH]. Qed.

Lemma append_assoc_string a b c : (a ++ b) ++ c = a ++ (b ++ c).
Proof. induction a as [|x a IH]; cbn; [reflexivity|now rewrite IH]. Qed.

Lemma concat_cons x l :
  String.concat "" (x :: l) = x ++ String.concat "" l.
Proof. destruct l; cbn; [now rewrite append_nil_r|reflexivity]. Qed.












End ChatFacts.

(** * The text of a rendered node and the system instruction *)

Section ChildrenFacts.

Import Children.
Local Open Scope string_scope.

Lemma extractText_falsy (c : children) :
  truthy c = false -> extractText c = "".
Proof.
  intros H. destruct c; cbn in *; try rewrite H; try reflexivity;
    discriminate.
Qed.

Lemma extractText_Items (l : list children) :
  extractText (Items l) = String.concat "" (List.map extractText l).
Proof. reflexivity. Qed.

Lemma concat_app (l1 l2 : list string) :
  String.concat "" (l1 ++ l2)%list
  = String.concat "" l1 ++ String.concat "" l2.
Proof.
  induction l1 as [|x l1 IH]; [reflexivity|].
  change ((x :: l1) ++ l2)%list with (x :: (l1 ++ l2))%list.
  rewrite !concat_cons, IH. symmetry. apply append_assoc_string.
Qed.

Lemma extractText_Element (c : children) :
  extractText (Element (Some c)) = extractText c.
Proof.
  change (extractText (Element (Some c)))
    with (if truthy c then extractText c else "").
  destruct (truthy c) eqn:Ht; [reflexivity|].
  symmetry. now apply extractText_falsy.
Qed.

(** X19: the text [extractText] returns does not depend on how the nodes
    are grouped: the text of an array is the texts of its items one after
    the other, so splitting an array into nested arrays, or wrapping a node
    in an element or in an array of its own, changes nothing. *)
Theorem extractText_ignores_nesting (l1 l2 : list children) (c : children) :
  extractText (Items (l1 ++ l2)%list)
  = extractText (Items l1) ++ extractText (Items l2) /\
  extractText (Items [Items l1; Items l2])
  = extractText (Items (l1 ++ l2)%list) /\
  extractText (Items (List.map (fun x => Element (Some x)) l1))
  = extractText (Items l1) /\
  extractText (Items [c]) = extractText c.
Proof.
  split; [|split; [|split; [|reflexivity]]].
  - rewrite !extractText_Items, List.map_app. apply concat_app.
  - rewrite (extractText_Items [_; _]). cbn [List.map].
    rewrite !concat_cons. cbn [String.concat]. rewrite append_nil_r.
    rewrite !extractText_Items, List.map_app. symmetry. apply concat_app.
  - rewrite !extractText_Items, List.map_map. f_equal.
    apply List.map_ext. intros x. apply extractText_Element.
Qed.

End ChildrenFacts.

Section PromptFacts.

Import Prompt.
Local Open Scope string_scope.

Variable GetSubstitution : string -> string -> nat -> string -> string.

Lemma replace_absent (searchString replaceValue str : string) :
  String.index 0 searchString str = None ->
  replace GetSubstitution searchString replaceValue str = str.
Proof. intros H. unfold replace. now rewrite H. Qed.

Lemma template_has_no_placeholder :
  String.index 0 "[GRADE_LEVEL]" SYSTEM_INSTRUCTION = None /\
  String.index 0 "[SUBJECT]" SYSTEM_INSTRUCTION = None /\
  String.index 0 "[CURRICULUM_LIST]" SYSTEM_INSTRUCTION = None.
Proof. repeat split; vm_compute; reflexivity. Qed.

(** The search does find what the template contains. *)
Lemma template_names_chart :
  String.index 0 "chart" SYSTEM_INSTRUCTION <> None.
Proof. vm_compute. discriminate. Qed.

(** X20: the system instruction sent with a request is the fixed template,
    whatever the grade, the subject and the curriculum list: the template
    holds none of the three placeholders, so each [replace] returns its
    input. *)
Theorem instruction_ignores_grade_and_subject
    (grade subject : string) (curriculumList : list string) :
  dynamicInstruction GetSubstitution grade subject curriculumList
  = SYSTEM_INSTRUCTION.
Proof.
  destruct template_has_no_placeholder as (Hg & Hs & Hc).
  unfold dynamicInstruction.
  rewrite (replace_absent "[GRADE_LEVEL]" grade _ Hg).
  rewrite (replace_absent "[SUBJECT]" subject _ Hs).
  now rewrite (replace_absent "[CURRICULUM_LIST]" _ _ Hc).
Qed.

End PromptFacts.
